(** * lib_manager: a shallow embedding of [LibManager.h] / [LibManager.cpp]

    The registry class [lib_manager::LibManager] keeps a
    [std::map<std::string, libStruct>] of loaded libraries, counts their
    users, notifies registered libraries of newcomers and locates shared
    objects on disk.  The C++ member functions are embedded as functions of
    a small state monad over the registry; calls that leave the class
    (module callbacks, [fopen], [dlopen], [stderr] output) are recorded
    in an event trace so that statements such as "the destructor ran once"
    can be phrased.

    Conventions.
    - [int] is a 32-bit signed integer held in [Z].  Signed overflow of
      [useCount++] / [useCount--] is undefined behaviour in C++; the model
      gives such a step the outcome [Undef], as it does for a call through a
      null pointer.
    - [throw std::runtime_error] is the outcome [Throw], carrying the
      registry as the exception leaves it.
    - Module code ([createModuleInfo], [newLibLoaded], the factory and the
      destroy function) is opaque: a call is logged and is assumed not to
      re-enter the manager. *)

From Stdlib Require Import ZArith String Ascii List Lia.
From stdpp Require Import base decidable option list sorting strings pretty gmap fin_maps.

Local Open Scope string_scope.
Local Open Scope list_scope.
Local Open Scope Z_scope.

(** ** Machine integers *)

Definition INT_MAX : Z := 2147483647.
Definition INT_MIN : Z := -2147483648.

(** ** Data model *)

(** Modelled from the spec: [LibInterface.h] is not among the sources.  It
    declares the abstract class [LibInterface] (section 6 of the
    specification: a name, a version, a self description and the peer-loaded
    callback) and the function types [destroyLib], [createLib] and
    [createLib2].  An object is represented by its identity together with
    what its pure getters answer; its callbacks appear as events. *)
Record LibInterface := mkLib {
  obj : N;
  getLibName : string;
  getLibVersion : Z
}.

#[global] Instance LibInterface_eq_dec : EqDecision LibInterface.
Proof. solve_decision. Defined.

(** A [destroyLib*] is the address of a module's [destroy_c]. *)
Definition destroyLib := N.

(** The [void *config] payload handed to [config_create_c]. *)
Definition Config := N.

(** [struct libStruct] of LibManager.h. *)
Record libStruct := mkLibStruct {
  libInterface : option LibInterface;
  destroy : option destroyLib;
  useCount : Z;
  wasUnloaded : bool;
  path : string
}.

(** [libStruct()] *)
Definition libStruct_default : libStruct :=
  mkLibStruct None None 0 false "".

(** [libStruct(LibInterface *i)] *)
Definition libStruct_of (i : option LibInterface) : libStruct :=
  mkLibStruct i None 1 false "".

Definition set_useCount (c : Z) (l : libStruct) : libStruct :=
  mkLibStruct (libInterface l) (destroy l) c (wasUnloaded l) (path l).
Definition set_destroy (d : option destroyLib) (l : libStruct) : libStruct :=
  mkLibStruct (libInterface l) d (useCount l) (wasUnloaded l) (path l).
Definition set_path (p : string) (l : libStruct) : libStruct :=
  mkLibStruct (libInterface l) (destroy l) (useCount l) (wasUnloaded l) p.

(** [enum ErrorNumber] *)
Inductive ErrorNumber :=
| LIBMGR_NO_ERROR
| LIBMGR_ERR_NO_LIBRARY
| LIBMGR_ERR_LIBNAME_EXISTS
| LIBMGR_ERR_NOT_ABLE_TO_LOAD
| LIBMGR_ERR_LIB_IN_USE
| LIBMGR_NUM_ERRORS.

#[global] Instance ErrorNumber_eq_dec : EqDecision ErrorNumber.
Proof. solve_decision. Defined.

(** The enumerators' integer values. *)
Definition ErrorNumber_value (e : ErrorNumber) : Z :=
  match e with
  | LIBMGR_NO_ERROR => 0
  | LIBMGR_ERR_NO_LIBRARY => 1
  | LIBMGR_ERR_LIBNAME_EXISTS => 2
  | LIBMGR_ERR_NOT_ABLE_TO_LOAD => 3
  | LIBMGR_ERR_LIB_IN_USE => 4
  | LIBMGR_NUM_ERRORS => 5
  end.

(** [errMessage], as the constructor fills it. *)
Definition errMessage (e : ErrorNumber) : string :=
  match e with
  | LIBMGR_NO_ERROR => "no error"
  | LIBMGR_ERR_NO_LIBRARY => "no library with given name loaded"
  | LIBMGR_ERR_LIBNAME_EXISTS => "library name already exists"
  | LIBMGR_ERR_NOT_ABLE_TO_LOAD => "not able to load library"
  | LIBMGR_ERR_LIB_IN_USE => "library is still in use"
  | LIBMGR_NUM_ERRORS => ""
  end.

(** ** Observable events *)

(** The lines the manager prints on [stderr]. *)
Inductive logLine :=
| LogLoadPlugin (libPath : string)
| LogFoundPlugin (filepath : string)
| LogCannotLoad (filepath : string)
| LogNoSymbol (name : string)
| LogDelete (name : string)
| LogUnloadDelete (name : string)
| LogCouldNotFind (name : string)
| LogConfigNotFound (file : string).

Inductive event :=
| Stderr (l : logLine)
| Fopen (file : string)
| Dlopen (file : string)
| CallCreate (config : option Config) (result : option LibInterface)
| CreateModuleInfo (i : LibInterface)
| NewLibLoaded (i : LibInterface) (name : string)
| Destroy (f : destroyLib) (i : option LibInterface).

(** ** The registry and its monad *)

(** [class LibManager]: the private [libMap], together with the trace of
    what the object has done so far. *)
Record LibManager := mkMgr {
  libMap : gmap string libStruct;
  events : list event
}.

Definition LibManager_new : LibManager := mkMgr ∅ [].

Inductive outcome (A : Type) :=
| Ok (a : A) (s : LibManager)
| Throw (s : LibManager)
| Undef.
Arguments Ok {A} a s.
Arguments Throw {A} s.
Arguments Undef {A}.

Definition M (A : Type) : Type := LibManager → outcome A.

Definition ret {A} (a : A) : M A := λ s, Ok a s.
Definition bind {A B} (m : M A) (k : A → M B) : M B :=
  λ s, match m s with
       | Ok a s' => k a s'
       | Throw s' => Throw s'
       | Undef => Undef
       end.
Definition throw {A} : M A := λ s, Throw s.
Definition undef {A} : M A := λ _, Undef.
Definition getMap : M (gmap string libStruct) := λ s, Ok (libMap s) s.
Definition putMap (m : gmap string libStruct) : M unit :=
  λ s, Ok tt (mkMgr m (events s)).
Definition emit (e : event) : M unit :=
  λ s, Ok tt (mkMgr (libMap s) (events s ++ [e])).

Notation "x <- m ;; k" := (bind m (λ x, k))
  (at level 100, m at next level, right associativity,
   format "'[v' x  <-  m  ;;  '/' k ']'").
Notation "m ;;; k" := (bind m (λ _, k))
  (at level 100, right associativity).

(** ** Iterating a [std::map<std::string, libStruct>]

    [begin()] .. [end()] visits the entries by ascending key;
    [std::string]'s [operator<] compares bytes as unsigned values, which is
    what [String.leb] does. *)

Definition key_le (x y : string * libStruct) : Prop :=
  String.leb x.1 y.1 = true.

#[global] Instance key_le_dec : RelDecision key_le.
Proof. intros x y. unfold key_le. apply _. Defined.

Definition entries (m : gmap string libStruct) : list (string * libStruct) :=
  merge_sort key_le (map_to_list m).

(** ** Registry operations (LibManager.cpp) *)

(** The notification loop of [addLibrary] (lines 139-144), over the map's
    entries in iteration order. *)
Fixpoint notify_loop (name : string) (its : list (string * libStruct)) : M unit :=
  match its with
  | [] => ret tt
  | (k, r) :: rest =>
      (if decide (k ≠ name)
       then match libInterface r with
            | Some i => emit (NewLibLoaded i name)
            | None => undef
            end
       else ret tt) ;;;
      notify_loop name rest
  end.

(** [LibManager::addLibrary] *)
Definition addLibrary (_lib : option LibInterface)
    (destroyFunc : option destroyLib) (path : string) : M ErrorNumber :=
  match _lib with
  | None => ret LIBMGR_ERR_NO_LIBRARY
  | Some i =>
      let newLib := set_path path (set_destroy destroyFunc (libStruct_of (Some i))) in
      let name := getLibName i in
      emit (CreateModuleInfo i) ;;;
      m <- getMap ;;
      match m !! name with
      | None =>
          putMap (<[name := newLib]> m) ;;;
          m' <- getMap ;;
          notify_loop name (entries m') ;;;
          ret LIBMGR_NO_ERROR
      | Some _ => ret LIBMGR_ERR_LIBNAME_EXISTS
      end
  end.

(** [LibManager::acquireLibrary] *)
Definition acquireLibrary (libName : string) : M (option LibInterface) :=
  m <- getMap ;;
  match m !! libName with
  | None =>
      emit (Stderr (LogCouldNotFind libName)) ;;;
      ret None
  | Some theLib =>
      if decide (useCount theLib = INT_MAX) then undef
      else
        putMap (<[libName := set_useCount (useCount theLib + 1) theLib]> m) ;;;
        ret (libInterface theLib)
  end.

(** [LibManager::unloadLibrary] *)
Definition unloadLibrary (libName : string) : M ErrorNumber :=
  m <- getMap ;;
  match m !! libName with
  | None => ret LIBMGR_ERR_NO_LIBRARY
  | Some theLib =>
      if decide (useCount theLib < 0) then throw
      else if decide (useCount theLib = 0) then
        emit (Stderr (LogUnloadDelete libName)) ;;;
        match destroy theLib with
        | Some f => emit (Destroy f (libInterface theLib))
        | None => ret tt
        end ;;;
        putMap (delete libName m) ;;;
        ret LIBMGR_NO_ERROR
      else ret LIBMGR_ERR_LIB_IN_USE
  end.

(** [LibManager::releaseLibrary] *)
Definition releaseLibrary (libName : string) : M ErrorNumber :=
  m <- getMap ;;
  match m !! libName with
  | None => ret LIBMGR_ERR_NO_LIBRARY
  | Some theLib =>
      if decide (useCount theLib = INT_MIN) then undef
      else
        let theLib' := set_useCount (useCount theLib - 1) theLib in
        putMap (<[libName := theLib']> m) ;;;
        if decide (useCount theLib' < 0) then throw
        else
          (if decide (useCount theLib' = 0)
           then unloadLibrary libName ;;; ret tt
           else ret tt) ;;;
          ret LIBMGR_NO_ERROR
  end.

(** The [while(!finished)] loop of [clearLibraries]: each round looks for
    the first entry whose count is zero, destroys and erases it, and starts
    over; a round that finds none ends the loop.  [fuel] bounds the number
    of rounds ([clearLibraries_loop_fuel] shows that the bound used by
    [clearLibraries] is never reached). *)
Fixpoint clearLibraries_loop (fuel : nat) : M unit :=
  match fuel with
  | O => ret tt
  | S fuel' =>
      m <- getMap ;;
      match list_find (λ it : string * libStruct, useCount it.2 = 0) (entries m) with
      | Some (_, (k, r)) =>
          emit (Stderr (LogDelete k)) ;;;
          match destroy r with
          | Some f => emit (Destroy f (libInterface r))
          | None => ret tt
          end ;;;
          putMap (delete k m) ;;;
          clearLibraries_loop fuel'
      | None => ret tt
      end
  end.

(** [LibManager::clearLibraries] *)
Definition clearLibraries : M unit :=
  m <- getMap ;;
  clearLibraries_loop (S (size m)).

(** The loop of [getAllLibraries]: [it->second.useCount++] then
    [push_back]. *)
Fixpoint getAllLibraries_loop (its : list (string * libStruct))
    (libList : list (option LibInterface)) : M (list (option LibInterface)) :=
  match its with
  | [] => ret libList
  | (k, r) :: rest =>
      if decide (useCount r = INT_MAX) then undef
      else
        m <- getMap ;;
        putMap (<[k := set_useCount (useCount r + 1) r]> m) ;;;
        getAllLibraries_loop rest (libList ++ [libInterface r])
  end.

(** [LibManager::getAllLibraries]; the list behind [libList] is returned
    with the handles appended. *)
Definition getAllLibraries (libList : list (option LibInterface))
    : M (list (option LibInterface)) :=
  m <- getMap ;;
  getAllLibraries_loop (entries m) libList.

(** [LibManager::getAllLibraryNames] *)
Definition getAllLibraryNames (libNameList : list string) : M (list string) :=
  m <- getMap ;;
  ret (libNameList ++ (entries m).*1).

(** [LibManager::acquireLibraryAs<T>]; [castable] says whether
    [dynamic_cast<T*>] succeeds on an object. *)
Definition acquireLibraryAs (castable : LibInterface → bool) (libName : string)
    : M (option LibInterface) :=
  libInterface <- acquireLibrary libName ;;
  match libInterface with
  | Some i =>
      if castable i then ret (Some i)
      else releaseLibrary libName ;;; ret None
  | None => ret None
  end.

(** [LibManager::getLibrary] *)
Definition getLibrary (libName : string) : M (option LibInterface) :=
  acquireLibrary libName.

(** [info.references] as [getLibraryInfo] reports it for a registered
    library (the specification's [refCount]); a name that is not registered
    has none. *)
Definition refCount (libName : string) (s : LibManager) : option Z :=
  useCount <$> libMap s !! libName.

(** ** The process environment

    What the manager reaches through libc: the files [fopen] can open for
    reading (with their bytes), the environment variables, and the images
    [dlopen] can load with the three symbols the manager asks [dlsym]
    for. *)

(** [createLib]: what [create_c(this)] answers. *)
Definition createLib := option LibInterface.
(** [createLib2]: what [config_create_c(this, config)] answers. *)
Definition createLib2 := Config → option LibInterface.

Record LibHandle := mkHandle {
  sym_destroy_c : option destroyLib;
  sym_create_c : option createLib;
  sym_config_create_c : option createLib2
}.

Record World := mkWorld {
  fs : string → option string;
  getenv : string → option string;
  dlopen : string → option LibHandle
}.

(** The [#ifdef] block at the head of [loadLibrary]. *)
Record Platform := mkPlatform {
  prefix : string;
  suffix : string;
  sep : ascii;
  env : string
}.

Definition platform_win32 : Platform := mkPlatform "lib" ".dll" ";" "PATH".
Definition platform_apple : Platform :=
  mkPlatform "lib" ".dylib" ":" "DYLD_LIBRARY_PATH".
Definition platform_posix : Platform :=
  mkPlatform "lib" ".so" ":" "LD_LIBRARY_PATH".

(** ** [std::string] members used by the sources *)

(** [s.find(c, pos)]; [None] is [npos]. *)
Fixpoint string_find (c : ascii) (s : string) (pos : nat) : option nat :=
  match s with
  | EmptyString => None
  | String a s' =>
      match pos with
      | O => if Ascii.eqb a c then Some O else S <$> string_find c s' O
      | S pos' => S <$> string_find c s' pos'
      end
  end.

(** [s.substr(pos, n)] for [pos <= s.size()], the only way the sources
    call it. *)
Definition substr (s : string) (pos n : nat) : string := substring pos n s.

Definition is_ws (c : ascii) : bool :=
  Ascii.eqb c " " || Ascii.eqb c "009" || Ascii.eqb c "010" || Ascii.eqb c "013".

(** [s.find_first_not_of(" \t\n\r")] *)
Fixpoint find_first_not_of_ws (s : string) : option nat :=
  match s with
  | EmptyString => None
  | String a s' => if is_ws a then S <$> find_first_not_of_ws s' else Some O
  end.

(** [s.find_last_not_of(" \t\n\r")] *)
Fixpoint find_last_not_of_ws (s : string) : option nat :=
  match s with
  | EmptyString => None
  | String a s' =>
      match find_last_not_of_ws s' with
      | Some p => Some (S p)
      | None => if is_ws a then None else Some O
      end
  end.

(** Building a [std::string] from a [char] buffer stops at the first
    NUL. *)
Fixpoint c_str (s : string) : string :=
  match s with
  | EmptyString => EmptyString
  | String a s' => if Ascii.eqb a "000" then EmptyString else String a (c_str s')
  end.

(** ** libc *)

(** [fopen(file, "r")], closed again right away: is the file openable? *)
Definition fopen_test (W : World) (file : string) : M bool :=
  emit (Fopen file) ;;;
  ret (bool_decide (is_Some (fs W file))).

(** [fgets(buf, n + 1, f)] on the unread part [s] of a file: the bytes
    stored in [buf] and the part still unread.  At most [n] bytes are taken
    and a newline ends the read.  An empty result is [fgets] returning
    [NULL]. *)
Fixpoint fgets (n : nat) (s : string) : string * string :=
  match n with
  | O => (EmptyString, s)
  | S n' =>
      match s with
      | EmptyString => (EmptyString, EmptyString)
      | String a s' =>
          if Ascii.eqb a "010" then (String a EmptyString, s')
          else let '(buf, rest) := fgets n' s' in (String a buf, rest)
      end
  end.

(** ** Loading (LibManager.cpp) *)

(** [intern_loadLib] *)
Definition intern_loadLib (W : World) (libPath : string) : M (option LibHandle) :=
  emit (Dlopen libPath) ;;;
  match dlopen W libPath with
  | Some h => ret (Some h)
  | None => emit (Stderr (LogCannotLoad libPath)) ;;; ret None
  end.

(** [getFunc<T>]: [sym] is what [dlsym] finds under [name]. *)
Definition getFunc {T} (sym : option T) (name : string) : M (option T) :=
  match sym with
  | Some f => ret (Some f)
  | None => emit (Stderr (LogNoSymbol name)) ;;; ret None
  end.

Section Loading.
Variable P : Platform.
Variable W : World.

(** The [while(next_path_pos != string::npos)] loop of [loadLibrary]
    (lines 194-209).  Every round consumes one separator of
    [lib_path_s], so [String.length lib_path_s + 1] rounds suffice
    ([search_loop_scan]). *)
Fixpoint search_loop (fuel : nat) (lib_path_s filepath : string)
    (actual_path_pos : nat) : M string :=
  match fuel with
  | O => ret filepath
  | S fuel' =>
      let next_path_pos := string_find (sep P) lib_path_s actual_path_pos in
      let actual_path :=
        substr lib_path_s actual_path_pos
          (match next_path_pos with
           | Some p => p - actual_path_pos
           | None => String.length lib_path_s - actual_path_pos
           end)%nat +:+ "/" in
      let actual_lib_path := actual_path +:+ filepath in
      testFile <- fopen_test W actual_lib_path ;;
      if (testFile : bool) then
        emit (Stderr (LogFoundPlugin actual_lib_path)) ;;;
        ret actual_lib_path
      else
        match next_path_pos with
        | Some p => search_loop fuel' lib_path_s filepath (p + 1)%nat
        | None => ret filepath
        end
  end.

(** Lines 181-215 of [loadLibrary]: the file name handed to the
    loader. *)
Definition locate (libPath : string) : M string :=
  testFile <- fopen_test W libPath ;;
  if (testFile : bool) then ret libPath
  else
    let filepath := prefix P +:+ libPath +:+ suffix P in
    match getenv W (env P) with
    | Some lib_path_s =>
        search_loop (S (String.length lib_path_s)) lib_path_s filepath 0
    | None => ret filepath
    end.

(** Lines 218-240: open the image and run its factory. *)
Definition instantiate (filepath : string) (config : option Config)
    : M (option LibInterface * option destroyLib) :=
  pl <- intern_loadLib W filepath ;;
  match pl with
  | Some h =>
      destroyFunc <- getFunc (sym_destroy_c h) "destroy_c" ;;
      match destroyFunc with
      | Some _ =>
          match config with
          | None =>
              tmp_con <- getFunc (sym_create_c h) "create_c" ;;
              match tmp_con with
              | Some create =>
                  emit (CallCreate None create) ;;;
                  ret (create, destroyFunc)
              | None => ret (None, destroyFunc)
              end
          | Some c =>
              tmp_con2 <- getFunc (sym_config_create_c h) "config_create_c" ;;
              match tmp_con2 with
              | Some create2 =>
                  emit (CallCreate (Some c) (create2 c)) ;;;
                  ret (create2 c, destroyFunc)
              | None => ret (None, destroyFunc)
              end
          end
      | None => ret (None, destroyFunc)
      end
  | None => ret (None, None)
  end.

(** [LibManager::loadLibrary] *)
Definition loadLibrary (libPath : string) (config : option Config)
    : M ErrorNumber :=
  emit (Stderr (LogLoadPlugin libPath)) ;;;
  filepath <- locate libPath ;;
  made <- instantiate filepath config ;;
  let interface := made.1 in
  let destroyFunc := made.2 in
  match interface with
  | None => ret LIBMGR_ERR_NOT_ABLE_TO_LOAD
  | Some _ =>
      error <- addLibrary interface destroyFunc libPath ;;
      (if decide (error ≠ LIBMGR_NO_ERROR)
       then match destroyFunc with
            | Some f => emit (Destroy f interface)
            | None => undef
            end
       else ret tt) ;;;
      ret LIBMGR_NO_ERROR
  end.

(** [const size_t maxChars = 255] *)
Definition maxChars : nat := 255.

(** What the body of the [while(fgets(...))] loop does with one buffer
    (lines 340-351): the path it loads, if any. *)
Definition plugin_of_buffer (plugin_chars : string) : option string :=
  let plugin_path := c_str plugin_chars in
  match find_first_not_of_ws plugin_path, find_last_not_of_ws plugin_path with
  | Some pos1, Some pos2 =>
      let plugin_path := substr plugin_path pos1 (pos2 - pos1 + 1)%nat in
      match String.get 0 plugin_path with
      | Some "#"%char => None
      | _ => Some plugin_path
      end
  | _, _ => None
  end.

(** The [while(fgets(plugin_chars, maxChars, plugin_config))] loop over
    the unread part of the file.  Every successful [fgets] takes at least
    one byte, so [String.length rest + 1] rounds suffice
    ([config_loop_fuel]). *)
Fixpoint config_loop (fuel : nat) (rest : string) : M unit :=
  match fuel with
  | O => ret tt
  | S fuel' =>
      match fgets (maxChars - 1) rest with
      | (EmptyString, _) => ret tt
      | (plugin_chars, rest') =>
          match plugin_of_buffer plugin_chars with
          | Some plugin_path => loadLibrary plugin_path None ;;; ret tt
          | None => ret tt
          end ;;;
          config_loop fuel' rest'
      end
  end.

(** [LibManager::loadConfigFile] *)
Definition loadConfigFile (config_file : string) : M unit :=
  emit (Fopen config_file) ;;;
  match fs W config_file with
  | None => emit (Stderr (LogConfigNotFound config_file))
  | Some content => config_loop (S (String.length content)) content
  end.

End Loading.



(** ** Programs over the public interface *)

(** One call of a public member function, with its arguments. *)
Inductive call :=
| DoAddLibrary (_lib : option LibInterface) (destroyFunc : option destroyLib)
    (path : string)
| DoLoadLibrary (P : Platform) (W : World) (libPath : string)
    (config : option Config)
| DoAcquireLibrary (libName : string)
| DoAcquireLibraryAs (castable : LibInterface → bool) (libName : string)
| DoReleaseLibrary (libName : string)
| DoUnloadLibrary (libName : string)
| DoLoadConfigFile (P : Platform) (W : World) (config_file : string)
| DoGetAllLibraries (libList : list (option LibInterface))
| DoGetAllLibraryNames (libNameList : list string)
| DoClearLibraries.

Definition run (c : call) : M unit :=
  match c with
  | DoAddLibrary l d p => addLibrary l d p ;;; ret tt
  | DoLoadLibrary P W p c => loadLibrary P W p c ;;; ret tt
  | DoAcquireLibrary n => acquireLibrary n ;;; ret tt
  | DoAcquireLibraryAs t n => acquireLibraryAs t n ;;; ret tt
  | DoReleaseLibrary n => releaseLibrary n ;;; ret tt
  | DoUnloadLibrary n => unloadLibrary n ;;; ret tt
  | DoLoadConfigFile P W f => loadConfigFile P W f
  | DoGetAllLibraries l => getAllLibraries l ;;; ret tt
  | DoGetAllLibraryNames l => getAllLibraryNames l ;;; ret tt
  | DoClearLibraries => clearLibraries
  end.

(** The registries a program can hold: a fresh manager, and what a call
    that returned, or threw, leaves behind. *)
Inductive reachable : LibManager → Prop :=
| reachable_new : reachable LibManager_new
| reachable_ok c s s' : reachable s → run c s = Ok tt s' → reachable s'
| reachable_throw c s s' : reachable s → run c s = Throw s' → reachable s'.

(** Calls that only look a name up: [acquireLibrary], [releaseLibrary],
    [unloadLibrary]. *)
Definition is_lookup (c : call) : bool :=
  match c with
  | DoAcquireLibrary _ | DoReleaseLibrary _ | DoUnloadLibrary _ => true
  | _ => false
  end.

(** [lookups_from s s']: [s'] is what some sequence of such calls makes of
    [s]. *)
Inductive lookups_from (s : LibManager) : LibManager → Prop :=
| lookups_none : lookups_from s s
| lookups_ok c s1 s2 :
    lookups_from s s1 → is_lookup c = true → run c s1 = Ok tt s2 →
    lookups_from s s2
| lookups_throw c s1 s2 :
    lookups_from s s1 → is_lookup c = true → run c s1 = Throw s2 →
    lookups_from s s2.

(** ** Reading the trace *)

(** The names [i] was told through [newLibLoaded]. *)
Definition notifications_to (i : LibInterface) (evs : list event) : list string :=
  omap (λ e, match e with
             | NewLibLoaded j n => if decide (j = i) then Some n else None
             | _ => None
             end) evs.

(** The paths [loadLibrary] was entered with. *)
Definition load_attempts (evs : list event) : list string :=
  omap (λ e, match e with
             | Stderr (LogLoadPlugin p) => Some p
             | _ => None
             end) evs.

(** What [unloadLibrary] emits when it disposes of record [r] under
    [name]. *)
Definition unload_events (name : string) (r : libStruct) : list event :=
  Stderr (LogUnloadDelete name) ::
  match destroy r with
  | Some f => [Destroy f (libInterface r)]
  | None => []
  end.

(** What the notification loop emits over [its]. *)
Definition notification (name : string) (it : string * libStruct) : option event :=
  if decide (it.1 ≠ name)
  then (λ i, NewLibLoaded i name) <$> libInterface it.2
  else None.

Definition notifications (name : string) (its : list (string * libStruct))
    : list event :=
  omap (notification name) its.

(** ** The registry invariant *)

Definition record_ok (k : string) (r : libStruct) : Prop :=
  1 ≤ useCount r ≤ INT_MAX ∧
  ∃ i, libInterface r = Some i ∧ getLibName i = k.

Definition registry_inv (s : LibManager) : Prop :=
  map_Forall record_ok (libMap s).

(** What [addLibrary] stores for a new library. *)
Definition new_record (i : LibInterface) (d : option destroyLib) (p : string)
    : libStruct :=
  mkLibStruct (Some i) d 1 false p.

(** [post Q o]: [Q] holds of the registry that [o] leaves, whether the call
    returned or threw. *)
Definition post {A} (Q : LibManager → Prop) (o : outcome A) : Prop :=
  match o with
  | Ok _ s' => Q s'
  | Throw s' => Q s'
  | Undef => True
  end.

Definition preserves {A} (m : M A) : Prop :=
  ∀ s, registry_inv s → post registry_inv (m s).

(** ** The resolution order, in the specification's words

    Section 4.2: split the search list on the delimiter, keeping the order;
    for each directory in order test [directory + "/" + candidate]; return
    the first hit and scan no further; with no hit, pass the decorated name
    on. *)

(** The pieces of [s] between occurrences of [c]. *)
Fixpoint split_on (c : ascii) (s : string) : list string :=
  match s with
  | EmptyString => [EmptyString]
  | String a s' =>
      if Ascii.eqb a c then EmptyString :: split_on c s'
      else match split_on c s' with
           | d :: ds => String a d :: ds
           | [] => [String a EmptyString]
           end
  end.

Fixpoint scan_dirs (W : World) (candidate : string) (dirs : list string)
    : M string :=
  match dirs with
  | [] => ret candidate
  | d :: ds =>
      let file := d +:+ "/" +:+ candidate in
      found <- fopen_test W file ;;
      if (found : bool) then emit (Stderr (LogFoundPlugin file)) ;;; ret file
      else scan_dirs W candidate ds
  end.

(** [s] without its first [n] characters. *)
Fixpoint string_drop (n : nat) (s : string) : string :=
  match n, s with
  | O, _ => s
  | S n', String _ s' => string_drop n' s'
  | S _, EmptyString => EmptyString
  end.

(** ** Config lines, in the specification's words

    Section 4.5: trim leading and trailing whitespace; ignore blank lines
    and lines beginning with [#]; every remaining line is loaded. *)

Fixpoint lstrip (s : string) : string :=
  match s with
  | EmptyString => EmptyString
  | String a s' => if is_ws a then lstrip s' else s
  end.

Fixpoint rstrip (s : string) : string :=
  match s with
  | EmptyString => EmptyString
  | String a s' =>
      match rstrip s' with
      | EmptyString => if is_ws a then EmptyString else String a EmptyString
      | t => String a t
      end
  end.

Definition trim (s : string) : string := rstrip (lstrip s).

Definition plugin_of_line (line : string) : option string :=
  match trim line with
  | EmptyString => None
  | String "#" _ => None
  | t => Some t
  end.

(** A character occurs in a string. *)
Fixpoint occurs (c : ascii) (s : string) : bool :=
  match s with
  | EmptyString => false
  | String a s' => Ascii.eqb a c || occurs c s'
  end.

Definition LF : string := String "010" EmptyString.

(** The text of a file made of the lines [lines], each ended by a newline,
    followed by [last] without one. *)
Definition file_of_lines (lines : list string) (last : string) : string :=
  foldr (λ l rest, l +:+ LF +:+ rest) last lines.

(** [after s evs]: the manager [s] once it has, besides, emitted [evs]. *)
Definition after (s : LibManager) (evs : list event) : LibManager :=
  mkMgr (libMap s) (events s ++ evs).

(** [fopen(file, "r")] succeeds. *)
Definition openable (W : World) (file : string) : Prop := is_Some (fs W file).

(** [extends m]: when [m] returns, the trace it leaves continues the one
    it found. *)
Definition extends {A} (m : M A) : Prop :=
  ∀ s a s', m s = Ok a s' → events s `prefix_of` events s'.

(** ** Sample libraries, registries and environments *)

Definition A_lib : LibInterface := mkLib 1 "A" 1.
Definition B_lib : LibInterface := mkLib 2 "B" 1.

(** A second object that also calls itself "A". *)
Definition A_twin : LibInterface := mkLib 9 "A" 2.

(** The registry after [addLibrary(A_lib, 7)]. *)
Definition registry_A : LibManager :=
  mkMgr {[ "A" := new_record A_lib (Some 7%N) "" ]} [CreateModuleInfo A_lib].

(** A machine on which [libfoo.so] sits in the second of three search
    directories and builds [A_twin]. *)
Definition foo_image : LibHandle :=
  mkHandle (Some 5%N) (Some (Some A_twin)) None.

Definition foo_world : World :=
  mkWorld
    (λ f, if decide (f = "/opt/lib/libfoo.so") then Some "" else None)
    (λ v, if decide (v = "LD_LIBRARY_PATH")
          then Some "/usr/lib:/opt/lib:/x" else None)
    (λ f, if decide (f = "/opt/lib/libfoo.so") then Some foo_image else None).

(** [n] copies of a character. *)
Fixpoint string_repeat (n : nat) (a : ascii) : string :=
  match n with
  | O => EmptyString
  | S n' => String a (string_repeat n' a)
  end.

(** A machine whose one config file holds a single line of 300 letters;
    nothing else exists on it. *)
Definition long_line : string := string_repeat 300 "a".

Definition long_world : World :=
  mkWorld
    (λ f, if decide (f = "plugins.txt") then Some (long_line +:+ LF) else None)
    (λ _, None)
    (λ _, None).

(** [runs att Q m]: from a registry satisfying the invariant, [m] returns
    (it neither throws nor is undefined) a value satisfying [Q], keeps the
    invariant, and enters [loadLibrary] with exactly the paths [att]. *)
Definition runs {A} (att : list string) (Q : A → Prop) (m : M A) : Prop :=
  ∀ s, registry_inv s →
    ∃ a s', m s = Ok a s' ∧ Q a ∧ registry_inv s' ∧
            load_attempts (events s') = load_attempts (events s) ++ att.

(** ** Config lines, as [loadConfigFile] reads them *)

(** The consecutive pieces of at most [n] bytes of [t]; [String.length t]
    rounds suffice when [n] is positive. *)
Fixpoint pieces (fuel n : nat) (t : string) : list string :=
  match fuel, t with
  | S fuel', String _ _ =>
      substring 0 n t :: pieces fuel' n (string_drop n t)
  | _, _ => []
  end.

(** A line in the pieces that fit the buffer beside its terminator. *)
Definition line_pieces (l : string) : list string :=
  pieces (String.length l) (maxChars - 1) l.

(** Each piece taken as a line of its own: cut at its first NUL, trimmed,
    and loaded unless it is blank or a comment. *)
Definition line_attempts (l : string) : list string :=
  omap (λ piece, plugin_of_line (c_str piece)) (line_pieces l).

(** A machine with a five-line config file: two comments, a blank line and
    two names. *)
Definition five_lines : list string :=
  ["# plugins"; "alpha"; ""; "  # more"; "  beta  "].

Definition five_world : World :=
  mkWorld
    (λ f, if decide (f = "plugins.txt")
          then Some (file_of_lines five_lines "") else None)
    (λ _, None)
    (λ _, None).

(** A machine whose config file holds a line of 300 letters, a comment, a
    name and, without a final newline, an indented name. *)
Definition mixed_text : string :=
  file_of_lines [long_line; "# note"; "beta"] "  gamma".

Definition mixed_world : World :=
  mkWorld
    (λ f, if decide (f = "plugins.txt") then Some mixed_text else None)
    (λ _, None)
    (λ _, None).

(** ** Reporting (LibManager.h, LibManager.cpp) *)

(** Modelled from the spec: [struct ModuleInfo] is declared in
    [LibInterface.h], which is not among the sources; [getLibraryInfo] reads
    its [src] and [revision] members (section 6 of the specification: the
    self description of a module). *)
Module ModuleInfo.
Record t := mk {
  src : string;
  revision : string
}.
End ModuleInfo.

(** [struct LibInfo] of LibManager.h. *)
Module LibInfo.
Record t := mk {
  name : string;
  path : string;
  version : Z;
  src : string;
  revision : string;
  references : Z
}.
End LibInfo.

(** [LibInfo info;]: the strings are empty; the two [int] members are not
    initialised and hold whatever [indeterminate] happens to be. *)
Definition LibInfo_uninitialised (indeterminate : Z * Z) : LibInfo.t :=
  LibInfo.mk "" "" indeterminate.1 "" "" indeterminate.2.

(** The three [stdlibInfo] of LibManager.cpp, by the version macro of the
    standard library the file is compiled against. *)
Definition stdlibInfo_libcxx (_LIBCPP_VERSION : Z) : LibInfo.t :=
  LibInfo.mk "libc++" "" _LIBCPP_VERSION "" "" 0.
Definition stdlibInfo_libstdcxx (__GNUC__ __GNUC_MINOR__ : Z) : LibInfo.t :=
  LibInfo.mk "libstdc++" "" (__GNUC__ * 100 + __GNUC_MINOR__) "" "" 0.
Definition stdlibInfo_unknown : LibInfo.t :=
  LibInfo.mk "unknown stdlib" "" 0 "" "" 0.

(** The lines [~LibManager] prints. *)
Inductive destructorLine :=
| NotDeleted (name : string) (references : Z)
| DeletedAll
| DeleteManager.

(** [LibManager::~LibManager]; what it prints on [stderr] is returned. *)
Definition LibManager_destructor : M (list destructorLine) :=
  clearLibraries ;;;
  m <- getMap ;;
  ret ((if decide (size m = 0%nat)
        then [DeletedAll]
        else (λ it : string * libStruct, NotDeleted it.1 (useCount it.2))
               <$> entries m)
       ++ [DeleteManager]).

Section Reporting.
Variable getModuleInfo : LibInterface → ModuleInfo.t.

(** [LibManager::getLibraryInfo] *)
Definition getLibraryInfo (indeterminate : Z * Z) (libName : string)
    : M LibInfo.t :=
  let info := LibInfo_uninitialised indeterminate in
  m <- getMap ;;
  match m !! libName with
  | Some it =>
      match libInterface it with
      | Some i =>
          let modInfo := getModuleInfo i in
          ret (LibInfo.mk libName (path it) (getLibVersion i)
                 (ModuleInfo.src modInfo) (ModuleInfo.revision modInfo)
                 (useCount it))
      | None => undef
      end
  | None => ret info
  end.

(** The text of one [<module>] element of [dumpTo], for a library. *)
Definition module_element (info : LibInfo.t) : string :=
  "    <module>" +:+ LF +:+
  "      <name>" +:+ c_str (LibInfo.name info) +:+ "</name>" +:+ LF +:+
  "      <src>" +:+ c_str (LibInfo.src info) +:+ "</src>" +:+ LF +:+
  "      <revision>" +:+ c_str (LibInfo.revision info) +:+ "</revision>" +:+ LF +:+
  "    </module>" +:+ LF.

(** The element for the standard library, which also has a version. *)
Definition stdlib_element (info : LibInfo.t) : string :=
  "    <module>" +:+ LF +:+
  "      <name>" +:+ c_str (LibInfo.name info) +:+ "</name>" +:+ LF +:+
  "      <src>" +:+ c_str (LibInfo.src info) +:+ "</src>" +:+ LF +:+
  "      <version>" +:+ pretty (LibInfo.version info) +:+ "</version>" +:+ LF +:+
  "      <revision>" +:+ c_str (LibInfo.revision info) +:+ "</revision>" +:+ LF +:+
  "    </module>" +:+ LF.

(** The [for] loop of [dumpTo] over [libNames]; [written] is the text
    printed to the file so far. *)
Fixpoint dumpTo_loop (indeterminate : Z * Z) (libNames : list string)
    (written : string) : M string :=
  match libNames with
  | [] => ret written
  | libName :: rest =>
      info <- getLibraryInfo indeterminate libName ;;
      dumpTo_loop indeterminate rest (written +:+ module_element info)
  end.

(** [LibManager::dumpTo].  [opened] says whether [fopen(filepath, "w")]
    succeeds; the code prints through the handle without testing it.  The
    text printed to the file is returned. *)
Definition dumpTo (stdlibInfo : LibInfo.t) (indeterminate : Z * Z)
    (opened : bool) : M string :=
  libNames <- getAllLibraryNames [] ;;
  if opened then
    written <- dumpTo_loop indeterminate libNames ("  <modules>" +:+ LF) ;;
    ret (written +:+ stdlib_element stdlibInfo +:+ "  </modules>" +:+ LF)
  else undef.

End Reporting.

(** ** Client programs *)

(** [m], [k] times in a row. *)
Fixpoint repeatM (k : nat) (m : M unit) : M unit :=
  match k with
  | O => ret tt
  | S k' => m ;;; repeatM k' m
  end.

(** [releaseLibrary] on each name of a list, in turn. *)
Fixpoint release_each (names : list string) : M unit :=
  match names with
  | [] => ret tt
  | n :: rest => releaseLibrary n ;;; release_each rest
  end.

(** ** Relations between the registry before and after a call *)

(** [ensures R m]: whenever [m] returns, [R] relates the registry it found
    to the one it leaves. *)
Definition ensures {A} (R : relation LibManager) (m : M A) : Prop :=
  ∀ s a s', m s = Ok a s' → R s s'.

(** Relations that printing or calling out does not disturb. *)
Class EmitStable (R : relation LibManager) : Prop :=
  emit_stable : ∀ s evs, R s (mkMgr (libMap s) (events s ++ evs)).

Definition same_map : relation LibManager :=
  λ s s', libMap s' = libMap s.

Definition map_grows : relation LibManager :=
  λ s s', libMap s ⊆ libMap s'.

(** What a healthy image's factory answers for [config]. *)
Definition factory_result (h : LibHandle) (config : option Config)
    : option LibInterface :=
  match config with
  | None => sym_create_c h ≫= id
  | Some c => sym_config_create_c h ≫= λ create2, create2 c
  end.

(** What [loadLibrary] obtains from the file [filepath]: the instance and
    the destroy function, provided the image opens and has both entry
    points. *)
Definition loadable (W : World) (filepath : string) (config : option Config)
    : option (LibInterface * destroyLib) :=
  h ← dlopen W filepath;
  d ← sym_destroy_c h;
  i ← factory_result h config;
  Some (i, d).

(** A path [loadConfigFile] may hand to [loadLibrary]: not empty, no
    whitespace at either end, no leading [#]. *)
Definition clean_path (p : string) : Prop :=
  ∃ a t, p = String a t ∧ is_ws a = false ∧ a ≠ "#"%char ∧ rstrip p = p.

(** One more user. *)
Definition incr (r : libStruct) : libStruct :=
  set_useCount (useCount r + 1) r.

(** Some sample data for the reports. *)
Definition sample_info (i : LibInterface) : ModuleInfo.t :=
  ModuleInfo.mk ("git://" +:+ getLibName i) "r1".

(** The buffers the [while(fgets(...))] loop of [loadConfigFile] sees, one
    after the other, on a file with the text [rest]. *)
Fixpoint read_buffers (fuel : nat) (rest : string) : list string :=
  match fuel with
  | O => []
  | S fuel' =>
      match fgets (maxChars - 1) rest with
      | (EmptyString, _) => []
      | (plugin_chars, rest') => plugin_chars :: read_buffers fuel' rest'
      end
  end.

(** The instance a record holds, told of [name]. *)
Definition tell (name : string) (it : string * libStruct) : option event :=
  (λ j, NewLibLoaded j name) <$> libInterface it.2.

(** What [getLibraryInfo] answers for a record. *)
Definition info_of (getModuleInfo : LibInterface → ModuleInfo.t)
    (it : string * libStruct) : option LibInfo.t :=
  (λ i, LibInfo.mk it.1 (path it.2) (getLibVersion i)
          (ModuleInfo.src (getModuleInfo i))
          (ModuleInfo.revision (getModuleInfo i)) (useCount it.2))
  <$> libInterface it.2.

(** A machine whose search-list variable is set, but empty, and which has
    a [libfoo.so] in its root directory. *)
Definition root_world : World :=
  mkWorld
    (λ f, if decide (f = "/libfoo.so") then Some "" else None)
    (λ v, if decide (v = "LD_LIBRARY_PATH") then Some "" else None)
    (λ _, None).

(** * Properties *)

(** ** Equations of the registry operations *)

Arguments addLibrary : simpl never.
Arguments acquireLibrary : simpl never.
Arguments releaseLibrary : simpl never.
Arguments unloadLibrary : simpl never.
Arguments loadLibrary : simpl never.
Arguments fgets : simpl never.
Arguments is_ws : simpl never.
Arguments plugin_of_buffer : simpl never.

Ltac run_M := unfold bind, ret, getMap, putMap, emit, throw, undef; simpl.

Lemma set_useCount_same r : set_useCount (useCount r) r = r.
Proof. by destruct r. Qed.

Lemma mgr_eta s : mkMgr (libMap s) (events s) = s.
Proof. by destruct s. Qed.

Lemma unloadLibrary_absent s n :
  libMap s !! n = None → unloadLibrary n s = Ok LIBMGR_ERR_NO_LIBRARY s.
Proof. intros H. unfold unloadLibrary. run_M. by rewrite H. Qed.

Lemma releaseLibrary_absent s n :
  libMap s !! n = None → releaseLibrary n s = Ok LIBMGR_ERR_NO_LIBRARY s.
Proof. intros H. unfold releaseLibrary. run_M. by rewrite H. Qed.

Lemma acquireLibrary_absent s n :
  libMap s !! n = None →
  acquireLibrary n s
  = Ok None (mkMgr (libMap s) (events s ++ [Stderr (LogCouldNotFind n)])).
Proof. intros H. unfold acquireLibrary. run_M. by rewrite H. Qed.

Lemma acquireLibrary_present s n r :
  libMap s !! n = Some r → useCount r ≠ INT_MAX →
  acquireLibrary n s
  = Ok (libInterface r)
       (mkMgr (<[n := set_useCount (useCount r + 1) r]> (libMap s)) (events s)).
Proof.
  intros H Hc. unfold acquireLibrary. run_M. rewrite H.
  by destruct (decide (useCount r = INT_MAX)).
Qed.

Lemma unloadLibrary_zero s n r :
  libMap s !! n = Some r → useCount r = 0 →
  unloadLibrary n s
  = Ok LIBMGR_NO_ERROR
       (mkMgr (delete n (libMap s)) (events s ++ unload_events n r)).
Proof.
  intros H Hc. unfold unloadLibrary, unload_events. run_M. rewrite H, Hc. simpl.
  destruct (destroy r); simpl; [|done].
  by rewrite <- app_assoc.
Qed.

Lemma unloadLibrary_positive s n r :
  libMap s !! n = Some r → 0 < useCount r →
  unloadLibrary n s = Ok LIBMGR_ERR_LIB_IN_USE s.
Proof.
  intros H Hc. unfold unloadLibrary. run_M. rewrite H.
  destruct (decide (useCount r < 0)); [lia|].
  destruct (decide (useCount r = 0)); [lia|done].
Qed.

Lemma unloadLibrary_negative s n r :
  libMap s !! n = Some r → useCount r < 0 → unloadLibrary n s = Throw s.
Proof.
  intros H Hc. unfold unloadLibrary. run_M. rewrite H.
  by destruct (decide (useCount r < 0)).
Qed.

Lemma releaseLibrary_more s n r :
  libMap s !! n = Some r → 1 < useCount r → useCount r ≤ INT_MAX →
  releaseLibrary n s
  = Ok LIBMGR_NO_ERROR
       (mkMgr (<[n := set_useCount (useCount r - 1) r]> (libMap s)) (events s)).
Proof.
  intros H Hc Hm. unfold releaseLibrary. run_M. rewrite H.
  destruct (decide (useCount r = INT_MIN)) as [E|_];
    [unfold INT_MIN in E; lia|].
  simpl.
  destruct (decide (useCount r - 1 < 0)); [lia|].
  destruct (decide (useCount r - 1 = 0)); [lia|done].
Qed.

Lemma releaseLibrary_last s n r :
  libMap s !! n = Some r → useCount r = 1 →
  releaseLibrary n s
  = Ok LIBMGR_NO_ERROR
       (mkMgr (delete n (libMap s)) (events s ++ unload_events n r)).
Proof.
  intros H Hc. unfold releaseLibrary. run_M. rewrite H, Hc. simpl.
  pose proof (unloadLibrary_zero
    (mkMgr (<[n := set_useCount 0 r]> (libMap s)) (events s)) n
    (set_useCount 0 r)) as U.
  simpl in U. rewrite lookup_insert_eq in U.
  change (1 - 1) with 0. rewrite U by done. by rewrite delete_insert_eq.
Qed.

(** ** Iteration order *)

Lemma entries_Permutation m : entries m ≡ₚ map_to_list m.
Proof. apply merge_sort_Permutation. Qed.

Lemma elem_of_entries m k r : (k, r) ∈ entries m ↔ m !! k = Some r.
Proof. rewrite entries_Permutation. apply elem_of_map_to_list. Qed.

Lemma notify_loop_run name its s :
  (∀ it, it ∈ its → is_Some (libInterface it.2)) →
  notify_loop name its s
  = Ok tt (mkMgr (libMap s) (events s ++ notifications name its)).
Proof.
  revert s. induction its as [|[k r] its IH]; intros s Hnn.
  - simpl. run_M. by rewrite app_nil_r, mgr_eta.
  - assert (is_Some (libInterface r)) as [i Hi].
    { apply (Hnn (k, r)). left. }
    simpl. unfold bind at 1, notification. simpl. rewrite Hi.
    destruct (decide (k ≠ name)); run_M.
    + rewrite IH by (intros; apply Hnn; by right). simpl.
      by rewrite <- app_assoc.
    + rewrite IH by (intros; apply Hnn; by right). done.
Qed.

(** ** Equations of [addLibrary] *)

Lemma addLibrary_null d p s :
  addLibrary None d p s = Ok LIBMGR_ERR_NO_LIBRARY s.
Proof. reflexivity. Qed.

Lemma addLibrary_conflict i d p s r :
  libMap s !! getLibName i = Some r →
  addLibrary (Some i) d p s
  = Ok LIBMGR_ERR_LIBNAME_EXISTS
       (mkMgr (libMap s) (events s ++ [CreateModuleInfo i])).
Proof. intros H. unfold addLibrary. run_M. by rewrite H. Qed.


Lemma addLibrary_fresh i d p s :
  registry_inv s → libMap s !! getLibName i = None →
  addLibrary (Some i) d p s
  = Ok LIBMGR_NO_ERROR
       (mkMgr (<[getLibName i := new_record i d p]> (libMap s))
              (events s ++ CreateModuleInfo i ::
                 notifications (getLibName i)
                   (entries (<[getLibName i := new_record i d p]> (libMap s))))).
Proof.
  intros Hinv H. unfold addLibrary. run_M. rewrite H. simpl.
  rewrite notify_loop_run; simpl.
  - by rewrite <- app_assoc.
  - intros [k r] Hin. apply elem_of_entries in Hin. simpl.
    destruct (decide (k = getLibName i)) as [->|Hne].
    + rewrite lookup_insert_eq in Hin. by inversion Hin.
    + rewrite lookup_insert_ne in Hin by done.
      destruct (Hinv k r Hin) as [_ (j & -> & _)]. done.
Qed.

(** ** Preservation of the invariant *)


Lemma preserves_ret {A} (a : A) : preserves (ret a).
Proof. by intros s H. Qed.

Lemma preserves_emit e : preserves (emit e).
Proof. by intros s H. Qed.

Lemma preserves_undef {A} : preserves (@undef A).
Proof. by intros s H. Qed.

Lemma preserves_bind {A B} (m : M A) (k : A → M B) :
  preserves m → (∀ a, preserves (k a)) → preserves (bind m k).
Proof.
  intros Hm Hk s Hs. unfold bind. specialize (Hm s Hs).
  destruct (m s); simpl in *; [by apply Hk|done|done].
Qed.

Create HintDb preserves.
#[local] Hint Resolve preserves_ret preserves_emit preserves_undef : preserves.

Ltac preserves_tac :=
  repeat first
    [ solve [eauto with preserves]
    | apply preserves_bind; [|intros ?]
    | match goal with
      | |- preserves (match ?x with _ => _ end) => destruct x
      | |- preserves (if ?x then _ else _) => destruct x
      end ].

Lemma registry_inv_insert s k r :
  registry_inv s → record_ok k r →
  registry_inv (mkMgr (<[k := r]> (libMap s)) (events s)).
Proof. intros Hs Hr. unfold registry_inv. simpl. by apply map_Forall_insert_2. Qed.

Lemma registry_inv_delete s k evs :
  registry_inv s → registry_inv (mkMgr (delete k (libMap s)) evs).
Proof. intros Hs. unfold registry_inv. simpl. by apply map_Forall_delete. Qed.

Lemma preserves_addLibrary l d p : preserves (addLibrary l d p).
Proof.
  intros s Hs. destruct l as [i|]; [|done].
  destruct (libMap s !! getLibName i) as [r|] eqn:E.
  - by rewrite (addLibrary_conflict _ _ _ _ r).
  - rewrite addLibrary_fresh by done. simpl.
    apply (registry_inv_insert s); [done|].
    split; [unfold INT_MAX; simpl; lia|]. by exists i.
Qed.

Lemma preserves_acquireLibrary n : preserves (acquireLibrary n).
Proof.
  intros s Hs. destruct (libMap s !! n) as [r|] eqn:E.
  - destruct (decide (useCount r = INT_MAX)) as [Hm|Hm].
    + unfold acquireLibrary. run_M. rewrite E.
      by destruct (decide (useCount r = INT_MAX)).
    + rewrite (acquireLibrary_present _ _ r) by done. simpl.
      apply (registry_inv_insert s); [done|].
      destruct (Hs n r E) as [Hc Hi]. split; [simpl; lia|done].
  - by rewrite acquireLibrary_absent.
Qed.

Lemma preserves_unloadLibrary n : preserves (unloadLibrary n).
Proof.
  intros s Hs. destruct (libMap s !! n) as [r|] eqn:E.
  - destruct (Hs n r E) as [Hc _].
    by rewrite (unloadLibrary_positive _ _ r) by (done || lia).
  - by rewrite unloadLibrary_absent.
Qed.

Lemma preserves_releaseLibrary n : preserves (releaseLibrary n).
Proof.
  intros s Hs. destruct (libMap s !! n) as [r|] eqn:E.
  - destruct (Hs n r E) as [Hc Hi].
    destruct (decide (useCount r = 1)) as [H1|H1].
    + rewrite (releaseLibrary_last _ _ r) by done. simpl.
      by apply registry_inv_delete.
    + rewrite (releaseLibrary_more _ _ r) by (done || lia). simpl.
      apply (registry_inv_insert s); [done|].
      split; [simpl; lia|done].
  - by rewrite releaseLibrary_absent.
Qed.

#[local] Hint Resolve preserves_addLibrary preserves_acquireLibrary
  preserves_unloadLibrary preserves_releaseLibrary : preserves.

Lemma preserves_acquireLibraryAs t n : preserves (acquireLibraryAs t n).
Proof. unfold acquireLibraryAs. preserves_tac. Qed.

Lemma preserves_getAllLibraries_loop its l :
  (∀ it, it ∈ its → record_ok it.1 it.2) →
  preserves (getAllLibraries_loop its l).
Proof.
  revert l. induction its as [|[k r] its IH]; intros l Hits; simpl.
  - eauto with preserves.
  - destruct (decide (useCount r = INT_MAX)); [eauto with preserves|].
    intros s Hs. run_M.
    apply IH; [intros; apply Hits; by right|].
    apply (registry_inv_insert s); [done|].
    destruct (Hits (k, r)) as [Hc Hi]; [left|].
    split; [simpl in *; lia|done].
Qed.

Lemma preserves_getAllLibraries l : preserves (getAllLibraries l).
Proof.
  intros s Hs. unfold getAllLibraries. run_M.
  apply preserves_getAllLibraries_loop; [|done].
  intros [k r] Hin. apply elem_of_entries in Hin. by apply Hs.
Qed.

Lemma preserves_clearLibraries_loop fuel : preserves (clearLibraries_loop fuel).
Proof.
  induction fuel as [|fuel IH]; simpl; [eauto with preserves|].
  intros s Hs. run_M.
  destruct (list_find _ _) as [[? [k r]]|]; [|done].
  destruct (destroy r); simpl; apply IH; by apply registry_inv_delete.
Qed.

Lemma preserves_clearLibraries : preserves clearLibraries.
Proof.
  intros s Hs. unfold clearLibraries, bind, getMap.
  by apply preserves_clearLibraries_loop.
Qed.

Lemma preserves_fopen_test W f : preserves (fopen_test W f).
Proof. unfold fopen_test. preserves_tac. Qed.

#[local] Hint Resolve preserves_fopen_test : preserves.

Lemma preserves_search_loop P W fuel l cand pos :
  preserves (search_loop P W fuel l cand pos).
Proof.
  revert pos. induction fuel as [|fuel IH]; intros pos; simpl;
    [eauto with preserves|].
  apply preserves_bind; [eauto with preserves|]. intros [|].
  - preserves_tac.
  - destruct (string_find _ _ _); eauto with preserves.
Qed.

Lemma preserves_locate P W libPath : preserves (locate P W libPath).
Proof.
  unfold locate. apply preserves_bind; [eauto with preserves|]. intros [|].
  - eauto with preserves.
  - destruct (getenv _ _); [apply preserves_search_loop|eauto with preserves].
Qed.

Lemma preserves_getFunc {T} (sym : option T) name : preserves (getFunc sym name).
Proof. unfold getFunc. preserves_tac. Qed.

#[local] Hint Resolve preserves_getFunc preserves_locate : preserves.

Lemma preserves_instantiate W f c : preserves (instantiate W f c).
Proof. unfold instantiate, intern_loadLib. preserves_tac. Qed.

#[local] Hint Resolve preserves_instantiate : preserves.

Lemma preserves_loadLibrary P W libPath c : preserves (loadLibrary P W libPath c).
Proof. unfold loadLibrary. preserves_tac. Qed.

#[local] Hint Resolve preserves_loadLibrary : preserves.

Lemma preserves_config_loop P W fuel rest : preserves (config_loop P W fuel rest).
Proof.
  revert rest. induction fuel as [|fuel IH]; intros rest; simpl;
    [eauto with preserves|].
  destruct (fgets _ rest) as [[|a buf] rest']; [eauto with preserves|].
  preserves_tac.
Qed.

Lemma preserves_loadConfigFile P W f : preserves (loadConfigFile P W f).
Proof.
  unfold loadConfigFile. apply preserves_bind; [eauto with preserves|].
  intros _. destruct (fs W f); [apply preserves_config_loop|eauto with preserves].
Qed.

Lemma preserves_run c : preserves (run c).
Proof.
  destruct c; simpl;
    eauto using preserves_bind, preserves_acquireLibraryAs,
      preserves_getAllLibraries, preserves_clearLibraries,
      preserves_loadConfigFile with preserves.
  unfold getAllLibraryNames. preserves_tac.
  intros s Hs. done.
Qed.

Lemma reachable_inv s : reachable s → registry_inv s.
Proof.
  induction 1 as [|c s s' _ IH Hrun|c s s' _ IH Hrun].
  - intros k r. simpl. by rewrite lookup_empty.
  - pose proof (preserves_run c s IH) as Hp. by rewrite Hrun in Hp.
  - pose proof (preserves_run c s IH) as Hp. by rewrite Hrun in Hp.
Qed.

(** ** Registration *)

Lemma reachable_registry_A : reachable registry_A.
Proof.
  apply (reachable_ok (DoAddLibrary (Some A_lib) (Some 7%N) "") LibManager_new).
  - apply reachable_new.
  - vm_compute. reflexivity.
Qed.

(** C2.  Registering a second module whose name is already taken returns
    [LIBMGR_ERR_LIBNAME_EXISTS]; the map is left as it was, so the first
    record is still the one stored under the name and its use count is
    unchanged. *)
Theorem addLibrary_name_conflict i d p s first :
  libMap s !! getLibName i = Some first →
  ∃ s', addLibrary (Some i) d p s = Ok LIBMGR_ERR_LIBNAME_EXISTS s' ∧
        libMap s' = libMap s ∧
        libMap s' !! getLibName i = Some first ∧
        refCount (getLibName i) s' = Some (useCount first).
Proof.
  intros H. eexists. split; [by apply addLibrary_conflict with first|].
  simpl. unfold refCount. simpl. by rewrite H.
Qed.

Lemma addLibrary_name_conflict_witness :
  libMap registry_A !! getLibName A_twin
    = Some (new_record A_lib (Some 7%N) "") ∧
  ∃ s', addLibrary (Some A_twin) None "" registry_A
          = Ok LIBMGR_ERR_LIBNAME_EXISTS s' ∧
        libMap s' = libMap registry_A ∧
        libMap s' !! getLibName A_twin = Some (new_record A_lib (Some 7%N) "") ∧
        refCount (getLibName A_twin) s' = Some (useCount (new_record A_lib (Some 7%N) "")).
Proof.
  split; [reflexivity|].
  apply (addLibrary_name_conflict A_twin None "" registry_A). reflexivity.
Defined.

(** C9, as the code has it.  [addLibrary] with a null instance returns
    [LIBMGR_ERR_NO_LIBRARY] and leaves the manager untouched; this is the
    very code [releaseLibrary] and [unloadLibrary] return for a name that is
    not registered. *)
Theorem addLibrary_null_instance d p s :
  addLibrary None d p s = Ok LIBMGR_ERR_NO_LIBRARY s ∧
  ∀ n, libMap s !! n = None →
       releaseLibrary n s = Ok LIBMGR_ERR_NO_LIBRARY s ∧
       unloadLibrary n s = Ok LIBMGR_ERR_NO_LIBRARY s.
Proof.
  split; [reflexivity|]. intros n H.
  split; [by apply releaseLibrary_absent|by apply unloadLibrary_absent].
Qed.

Lemma addLibrary_null_instance_witness :
  libMap registry_A !! "B" = None ∧
  addLibrary None (Some 3%N) "p" registry_A = Ok LIBMGR_ERR_NO_LIBRARY registry_A ∧
  releaseLibrary "B" registry_A = Ok LIBMGR_ERR_NO_LIBRARY registry_A ∧
  unloadLibrary "B" registry_A = Ok LIBMGR_ERR_NO_LIBRARY registry_A.
Proof.
  assert (libMap registry_A !! "B" = None) as H by reflexivity.
  split; [exact H|].
  destruct (addLibrary_null_instance (Some 3%N) "p" registry_A) as [Ha Hn].
  split; [exact Ha|]. exact (Hn "B" H).
Defined.

(** C9, as stated, fails: the error for a null instance is not distinct
    from the one for an unknown name. *)
Lemma addLibrary_null_error_not_distinct :
  ¬ ∀ e e',
      addLibrary None None "" LibManager_new = Ok e LibManager_new →
      releaseLibrary "unknown" LibManager_new = Ok e' LibManager_new →
      e ≠ e'.
Proof.
  intros H.
  by apply (H LIBMGR_ERR_NO_LIBRARY LIBMGR_ERR_NO_LIBRARY).
Qed.

(** ** Reference counting *)

(** C5.  In every registry a program can hold, each stored record has a
    use count of at least one. *)
Theorem reachable_useCount_positive s n r :
  reachable s → libMap s !! n = Some r → 1 ≤ useCount r.
Proof.
  intros Hs Hn. apply reachable_inv in Hs. by destruct (Hs n r Hn) as [[? ?] _].
Qed.

Lemma reachable_useCount_positive_witness :
  reachable registry_A ∧
  libMap registry_A !! "A" = Some (new_record A_lib (Some 7%N) "") ∧
  1 ≤ useCount (new_record A_lib (Some 7%N) "").
Proof.
  split; [apply reachable_registry_A|]. split; [reflexivity|].
  apply (reachable_useCount_positive registry_A "A").
  - apply reachable_registry_A.
  - reflexivity.
Defined.

(** C10.  [unloadLibrary] on a registered library whose use count is not
    zero answers [LIBMGR_ERR_LIB_IN_USE] and changes nothing: same map,
    same counts, no destructor call. *)
Theorem unloadLibrary_in_use s n r :
  reachable s → libMap s !! n = Some r → useCount r ≠ 0 →
  unloadLibrary n s = Ok LIBMGR_ERR_LIB_IN_USE s.
Proof.
  intros Hs Hn _. apply unloadLibrary_positive with r; [done|].
  apply reachable_inv in Hs. destruct (Hs n r Hn) as [[? ?] _]. lia.
Qed.

Lemma unloadLibrary_in_use_witness :
  reachable registry_A ∧
  libMap registry_A !! "A" = Some (new_record A_lib (Some 7%N) "") ∧
  useCount (new_record A_lib (Some 7%N) "") ≠ 0 ∧
  unloadLibrary "A" registry_A = Ok LIBMGR_ERR_LIB_IN_USE registry_A.
Proof.
  assert (useCount (new_record A_lib (Some 7%N) "") ≠ 0) as H by (simpl; lia).
  split; [apply reachable_registry_A|]. split; [reflexivity|].
  split; [exact H|].
  apply (unloadLibrary_in_use registry_A "A" (new_record A_lib (Some 7%N) "")).
  - apply reachable_registry_A.
  - reflexivity.
  - exact H.
Defined.

(** C3.  [acquireLibrary(n)] followed at once by [releaseLibrary(n)] puts
    [refCount n] back; for a registered library (whose count is then at
    least one) the whole manager is as before: record kept, no destructor
    call.  The count must be below [INT_MAX] for [useCount++] to be
    defined. *)
Theorem acquire_release_restores s n :
  reachable s → refCount n s ≠ Some INT_MAX →
  ∃ h s1 e s2,
    acquireLibrary n s = Ok h s1 ∧
    releaseLibrary n s1 = Ok e s2 ∧
    refCount n s2 = refCount n s ∧
    ∀ r, libMap s !! n = Some r → 1 ≤ useCount r →
         h = libInterface r ∧ e = LIBMGR_NO_ERROR ∧ s2 = s.
Proof.
  intros Hs Hmax. apply reachable_inv in Hs. unfold refCount in *.
  destruct (libMap s !! n) as [r|] eqn:E.
  - destruct (Hs n r E) as [[Hlo Hhi] _].
    assert (useCount r ≠ INT_MAX) as Hne by (simpl in Hmax; congruence).
    set (r1 := set_useCount (useCount r + 1) r).
    set (s1 := mkMgr (<[n := r1]> (libMap s)) (events s)).
    assert (releaseLibrary n s1 = Ok LIBMGR_NO_ERROR s) as Hrel.
    { rewrite (releaseLibrary_more s1 n r1);
        [|by apply lookup_insert_eq|simpl; lia|simpl; lia].
      simpl. rewrite insert_insert_eq.
      replace (set_useCount (useCount r + 1 - 1) r1) with r
        by (destruct r; unfold r1, set_useCount; simpl; f_equal; lia).
      rewrite insert_id by done. by rewrite mgr_eta. }
    exists (libInterface r), s1, LIBMGR_NO_ERROR, s.
    split; [by apply acquireLibrary_present|].
    split; [done|]. rewrite E. split; [done|].
    intros r' [= <-] _. done.
  - eexists _, _, _, _. split; [by apply acquireLibrary_absent|].
    split; [by apply releaseLibrary_absent|].
    simpl. rewrite E. split; [done|]. intros r' [=].
Qed.

Lemma acquire_release_restores_witness :
  reachable registry_A ∧ refCount "A" registry_A ≠ Some INT_MAX ∧
  ∃ h s1 e s2,
    acquireLibrary "A" registry_A = Ok h s1 ∧
    releaseLibrary "A" s1 = Ok e s2 ∧
    refCount "A" s2 = refCount "A" registry_A ∧
    ∀ r, libMap registry_A !! "A" = Some r → 1 ≤ useCount r →
         h = libInterface r ∧ e = LIBMGR_NO_ERROR ∧ s2 = registry_A.
Proof.
  assert (refCount "A" registry_A ≠ Some INT_MAX) as H by (vm_compute; congruence).
  split; [apply reachable_registry_A|]. split; [exact H|].
  apply (acquire_release_restores registry_A "A").
  - apply reachable_registry_A.
  - exact H.
Defined.

(** A call that only looks a name up never registers one. *)
Lemma lookup_call_keeps_absent c n s :
  is_lookup c = true → libMap s !! n = None →
  post (λ s', libMap s' !! n = None) (run c s).
Proof.
  intros Hc Hn. destruct c as [| |m| |m|m| | | |]; try discriminate; simpl.
  - unfold acquireLibrary. run_M.
    destruct (libMap s !! m) as [r|] eqn:E; simpl; [|done].
    destruct (decide (useCount r = INT_MAX)); simpl; [done|].
    rewrite lookup_insert_ne; [done|congruence].
  - unfold releaseLibrary, unloadLibrary. run_M.
    destruct (libMap s !! m) as [r|] eqn:E; simpl; [|done].
    assert (m ≠ n) as Hne by congruence.
    destruct (decide (useCount r = INT_MIN)); simpl; [done|].
    destruct (decide (useCount r - 1 < 0)); simpl;
      [by rewrite lookup_insert_ne|].
    destruct (decide (useCount r - 1 = 0)) as [Hz|Hz]; simpl;
      [|by rewrite lookup_insert_ne].
    rewrite lookup_insert_eq. simpl.
    destruct (decide (useCount r - 1 < 0)); [lia|].
    destruct (decide (useCount r - 1 = 0)); [|lia].
    destruct (destroy r); simpl;
      by rewrite lookup_delete_ne, lookup_insert_ne.
  - unfold unloadLibrary. run_M.
    destruct (libMap s !! m) as [r|] eqn:E; simpl; [|done].
    assert (m ≠ n) as Hne by congruence.
    destruct (decide (useCount r < 0)); simpl; [done|].
    destruct (decide (useCount r = 0)); simpl; [|done].
    destruct (destroy r); simpl; by rewrite lookup_delete_ne.
Qed.

Lemma lookups_from_keep_absent n s s' :
  lookups_from s s' → libMap s !! n = None → libMap s' !! n = None.
Proof.
  induction 1 as [|c s1 s2 _ IH Hc Hrun|c s1 s2 _ IH Hc Hrun]; intros Hn;
    [done| |];
    pose proof (lookup_call_keeps_absent c n s1 Hc (IH Hn)) as Hp;
    by rewrite Hrun in Hp.
Qed.

(** C4.  The [releaseLibrary] that takes a use count from one to zero
    erases the record and calls its destroy function once, if it has one;
    from then on, whatever further acquire, release and unload calls are
    made, the name is unknown to all three. *)
Theorem release_to_zero_unloads s n r :
  libMap s !! n = Some r → useCount r = 1 →
  ∃ s',
    releaseLibrary n s = Ok LIBMGR_NO_ERROR s' ∧
    libMap s' = delete n (libMap s) ∧
    events s' = events s ++ Stderr (LogUnloadDelete n) ::
                  match destroy r with
                  | Some f => [Destroy f (libInterface r)]
                  | None => []
                  end ∧
    ∀ s'', lookups_from s' s'' →
      releaseLibrary n s'' = Ok LIBMGR_ERR_NO_LIBRARY s'' ∧
      unloadLibrary n s'' = Ok LIBMGR_ERR_NO_LIBRARY s'' ∧
      ∃ s3, acquireLibrary n s'' = Ok None s3 ∧ libMap s3 = libMap s''.
Proof.
  intros Hn Hc. eexists. split; [by apply (releaseLibrary_last s n r)|].
  simpl. split; [done|]. split; [done|].
  intros s'' Hsteps.
  assert (libMap s'' !! n = None) as Habs.
  { apply (lookups_from_keep_absent n _ _ Hsteps). simpl.
    apply lookup_delete_eq. }
  split; [by apply releaseLibrary_absent|].
  split; [by apply unloadLibrary_absent|].
  eexists. split; [by apply acquireLibrary_absent|done].
Qed.

Lemma release_to_zero_unloads_witness :
  libMap registry_A !! "A" = Some (new_record A_lib (Some 7%N) "") ∧
  useCount (new_record A_lib (Some 7%N) "") = 1 ∧
  ∃ s',
    releaseLibrary "A" registry_A = Ok LIBMGR_NO_ERROR s' ∧
    libMap s' = delete "A" (libMap registry_A) ∧
    events s' = events registry_A ++
                  [Stderr (LogUnloadDelete "A"); Destroy 7%N (Some A_lib)] ∧
    ∀ s'', lookups_from s' s'' →
      releaseLibrary "A" s'' = Ok LIBMGR_ERR_NO_LIBRARY s'' ∧
      unloadLibrary "A" s'' = Ok LIBMGR_ERR_NO_LIBRARY s'' ∧
      ∃ s3, acquireLibrary "A" s'' = Ok None s3 ∧ libMap s3 = libMap s''.
Proof.
  split; [reflexivity|]. split; [reflexivity|].
  apply (release_to_zero_unloads registry_A "A"
           (new_record A_lib (Some 7%N) "")); reflexivity.
Defined.

(** ** Peer notification *)

Lemma notifications_to_app i evs1 evs2 :
  notifications_to i (evs1 ++ evs2)
  = notifications_to i evs1 ++ notifications_to i evs2.
Proof. apply omap_app. Qed.

Lemma elem_of_notifications name its e :
  e ∈ notifications name its ↔
  ∃ k r i, (k, r) ∈ its ∧ k ≠ name ∧ libInterface r = Some i ∧
           e = NewLibLoaded i name.
Proof.
  unfold notifications. rewrite list_elem_of_omap. split.
  - intros ([k r] & Hin & Hev). unfold notification in Hev. simpl in Hev.
    destruct (decide (k ≠ name)); [|done].
    destruct (libInterface r) as [i|] eqn:Hi; [|done].
    exists k, r, i. by inversion Hev.
  - intros (k & r & i & Hin & Hne & Hi & ->). exists (k, r). split; [done|].
    unfold notification. simpl. rewrite Hi.
    by destruct (decide (k ≠ name)).
Qed.

Lemma notifications_to_cons i e evs :
  notifications_to i (e :: evs)
  = match e with
    | NewLibLoaded j n => if decide (j = i) then [n] else []
    | _ => []
    end ++ notifications_to i evs.
Proof.
  destruct e as [| | | | |j name|]; try reflexivity.
  unfold notifications_to. simpl. by destruct (decide (j = i)).
Qed.

Lemma notifications_to_nil i evs :
  (∀ n, NewLibLoaded i n ∉ evs) → notifications_to i evs = [].
Proof.
  induction evs as [|e evs IH]; intros H; [done|].
  rewrite notifications_to_cons.
  rewrite IH by (intros n Hn; apply (H n); by right).
  destruct e as [| | | | |j name|]; try done.
  destruct (decide (j = i)) as [->|]; [|done].
  exfalso. apply (H name). left.
Qed.

Lemma notifications_cons name it its :
  notifications name (it :: its)
  = option_list (notification name it) ++ notifications name its.
Proof. unfold notifications. simpl. by destruct (notification name it). Qed.

(** Notifying the peers of [name] tells nothing to an object that no other
    record holds. *)
Lemma notifications_to_stranger i name its :
  (∀ k r, (k, r) ∈ its → k ≠ name → libInterface r ≠ Some i) →
  notifications_to i (notifications name its) = [].
Proof.
  intros H. apply notifications_to_nil. intros n Hin.
  apply elem_of_notifications in Hin as (k & r & j & Hin & Hne & Hj & [= -> ->]).
  by apply (H k r).
Qed.

(** C7.  Registering [A] and then [B], under different names that are both
    free: [A] is told of exactly one new library, [B]; [B] is told
    nothing; and nobody is ever told of itself. *)
Theorem peer_notification A B dA pA dB pB s :
  reachable s →
  getLibName A ≠ getLibName B →
  libMap s !! getLibName A = None →
  libMap s !! getLibName B = None →
  ∃ s1 s2 evs,
    addLibrary (Some A) dA pA s = Ok LIBMGR_NO_ERROR s1 ∧
    addLibrary (Some B) dB pB s1 = Ok LIBMGR_NO_ERROR s2 ∧
    events s2 = events s ++ evs ∧
    notifications_to A evs = [getLibName B] ∧
    notifications_to B evs = [] ∧
    ∀ i n, NewLibLoaded i n ∈ evs → getLibName i ≠ n.
Proof.
  intros Hs Hne HA HB. apply reachable_inv in Hs.
  set (m1 := <[getLibName A := new_record A dA pA]> (libMap s)).
  set (ev1 := CreateModuleInfo A :: notifications (getLibName A) (entries m1)).
  set (s1 := mkMgr m1 (events s ++ ev1)).
  set (m2 := <[getLibName B := new_record B dB pB]> m1).
  set (ev2 := CreateModuleInfo B :: notifications (getLibName B) (entries m2)).
  set (s2 := mkMgr m2 (events s1 ++ ev2)).
  assert (addLibrary (Some A) dA pA s = Ok LIBMGR_NO_ERROR s1) as Hadd1
    by by apply addLibrary_fresh.
  assert (registry_inv s1) as Hs1.
  { pose proof (preserves_addLibrary (Some A) dA pA s Hs) as Hp.
    by rewrite Hadd1 in Hp. }
  assert (libMap s1 !! getLibName B = None) as HB1.
  { simpl. unfold m1. by rewrite lookup_insert_ne. }
  assert (addLibrary (Some B) dB pB s1 = Ok LIBMGR_NO_ERROR s2) as Hadd2
    by by apply addLibrary_fresh.
  assert (registry_inv s2) as Hs2.
  { pose proof (preserves_addLibrary (Some B) dB pB s1 Hs1) as Hp.
    by rewrite Hadd2 in Hp. }
  (* whom a record of [s1] or [s2] belongs to *)
  assert (∀ k r i, (k, r) ∈ entries m1 → libInterface r = Some i →
                   getLibName i = k) as Hown1.
  { intros k r i Hin Hi. apply elem_of_entries in Hin.
    destruct (Hs1 k r Hin) as [_ (j & Hj & <-)]. congruence. }
  assert (∀ k r i, (k, r) ∈ entries m2 → libInterface r = Some i →
                   getLibName i = k) as Hown2.
  { intros k r i Hin Hi. apply elem_of_entries in Hin.
    destruct (Hs2 k r Hin) as [_ (j & Hj & <-)]. congruence. }
  exists s1, s2, (ev1 ++ ev2).
  split; [done|]. split; [done|].
  split; [symmetry; apply (app_assoc (events s) ev1 ev2)|].
  split; [|split].
  - (* A hears of B, once *)
    rewrite notifications_to_app. unfold ev1, ev2.
    rewrite !notifications_to_cons. simpl.
    rewrite notifications_to_stranger.
    2:{ intros k r Hin Hk Hi. apply Hk. symmetry. by apply (Hown1 k r A). }
    simpl. apply Permutation_singleton_r.
    set (m' := <[getLibName B := new_record B dB pB]> (libMap s)).
    assert (entries m2 ≡ₚ (getLibName A, new_record A dA pA) :: map_to_list m')
      as Hperm.
    { rewrite entries_Permutation. unfold m2, m1.
      rewrite insert_insert_ne by done.
      apply map_to_list_insert. unfold m'. by rewrite lookup_insert_ne. }
    transitivity (notifications_to A
      (notifications (getLibName B)
         ((getLibName A, new_record A dA pA) :: map_to_list m'))).
    { unfold notifications_to, notifications. by rewrite Hperm. }
    rewrite notifications_cons, notifications_to_app.
    rewrite (notifications_to_stranger A _ (map_to_list m')).
    2:{ intros k r Hin Hk Hi. apply elem_of_map_to_list in Hin.
        unfold m' in Hin. rewrite lookup_insert_ne in Hin by done.
        destruct (Hs k r Hin) as [_ (j & Hj & <-)].
        assert (j = A) as -> by congruence.
        rewrite Hin in HA. done. }
    unfold notification. simpl.
    destruct (decide (getLibName A ≠ getLibName B)); [|done]. simpl.
    unfold notifications_to. simpl. by destruct (decide (A = A)).
  - (* B hears nothing *)
    rewrite notifications_to_app. unfold ev1, ev2.
    change (notifications_to B (CreateModuleInfo ?i :: ?l))
      with (notifications_to B l).
    rewrite !notifications_to_stranger; [done| |].
    + intros k r Hin Hk Hi. apply Hk. symmetry. by apply (Hown2 k r B).
    + intros k r Hin Hk Hi. pose proof (Hown1 k r B Hin Hi) as <-.
      apply elem_of_entries in Hin. simpl in HB1. congruence.
  - (* nobody hears of itself *)
    intros i n Hin. apply elem_of_app in Hin as [Hin|Hin];
      apply elem_of_cons in Hin as [[=]|Hin];
      apply elem_of_notifications in Hin
        as (k & r & j & Hin & Hk & Hj & [= -> ->]).
    + by rewrite (Hown1 k r j).
    + by rewrite (Hown2 k r j).
Qed.

Lemma peer_notification_witness :
  reachable LibManager_new ∧
  getLibName A_lib ≠ getLibName B_lib ∧
  libMap LibManager_new !! getLibName A_lib = None ∧
  libMap LibManager_new !! getLibName B_lib = None ∧
  ∃ s1 s2 evs,
    addLibrary (Some A_lib) None "" LibManager_new = Ok LIBMGR_NO_ERROR s1 ∧
    addLibrary (Some B_lib) None "" s1 = Ok LIBMGR_NO_ERROR s2 ∧
    events s2 = events LibManager_new ++ evs ∧
    notifications_to A_lib evs = [getLibName B_lib] ∧
    notifications_to B_lib evs = [] ∧
    ∀ i n, NewLibLoaded i n ∈ evs → getLibName i ≠ n.
Proof.
  assert (getLibName A_lib ≠ getLibName B_lib) as H by discriminate.
  split; [apply reachable_new|]. split; [exact H|].
  split; [reflexivity|]. split; [reflexivity|].
  apply (peer_notification A_lib B_lib None "" None "" LibManager_new).
  - apply reachable_new.
  - exact H.
  - reflexivity.
  - reflexivity.
Defined.

(** ** Loading *)

Lemma bind_Ok {A B} (m : M A) (k : A → M B) s b s' :
  bind m k s = Ok b s' → ∃ a s1, m s = Ok a s1 ∧ k a s1 = Ok b s'.
Proof. unfold bind. destruct (m s) as [a s1| |]; [eauto|done|done]. Qed.

(** [loadLibrary] has two answers only; a failed registration is not one
    of them. *)
Lemma loadLibrary_answers P W libPath config s e s' :
  loadLibrary P W libPath config s = Ok e s' →
  e = LIBMGR_NO_ERROR ∨ e = LIBMGR_ERR_NOT_ABLE_TO_LOAD.
Proof.
  unfold loadLibrary. intros H.
  apply bind_Ok in H as (_ & s1 & _ & H).
  apply bind_Ok in H as (filepath & s2 & _ & H).
  apply bind_Ok in H as ([interface destroyFunc] & s3 & _ & H). simpl in H.
  destruct interface as [i|]; [|inversion H; by right].
  apply bind_Ok in H as (error & s4 & _ & H).
  apply bind_Ok in H as (_ & s5 & _ & H). inversion H. by left.
Qed.

(** C1.  [registry_A] already holds a library called "A"; loading
    [libfoo.so], whose factory builds another "A", makes [addLibrary] fail
    with [LIBMGR_ERR_LIBNAME_EXISTS].  [loadLibrary] destroys the new
    instance, and then answers [LIBMGR_NO_ERROR]. *)
Theorem loadLibrary_conflict_reports_no_error :
  ∃ s1 s2,
    (emit (Stderr (LogLoadPlugin "foo")) ;;;
     filepath <- locate platform_posix foo_world "foo" ;;
     instantiate foo_world filepath None) registry_A
      = Ok (Some A_twin, Some 5%N) s1 ∧
    addLibrary (Some A_twin) (Some 5%N) "foo" s1
      = Ok LIBMGR_ERR_LIBNAME_EXISTS s2 ∧
    loadLibrary platform_posix foo_world "foo" None registry_A
      = Ok LIBMGR_NO_ERROR
           (mkMgr (libMap s2) (events s2 ++ [Destroy 5%N (Some A_twin)])) ∧
    libMap s2 = libMap registry_A.
Proof.
  eexists _, _. split; [vm_compute; reflexivity|].
  split; [vm_compute; reflexivity|].
  split; vm_compute; reflexivity.
Qed.

(** ** Path resolution *)

Lemma string_app_cons a s t : String a s +:+ t = String a (s +:+ t).
Proof. reflexivity. Qed.

Lemma string_app_assoc s t u : (s +:+ t) +:+ u = s +:+ t +:+ u.
Proof.
  induction s as [|a s IH]; [done|].
  by rewrite !string_app_cons, IH.
Qed.

Lemma substring_all t : substring 0 (String.length t) t = t.
Proof. induction t as [|a t IH]; simpl; [done|by rewrite IH]. Qed.

Lemma string_drop_length n t :
  String.length (string_drop n t) = (String.length t - n)%nat.
Proof.
  revert t. induction n as [|n IH]; intros [|a t]; simpl; done.
Qed.

Lemma split_on_not_nil c t : split_on c t ≠ [].
Proof.
  destruct t as [|a t]; simpl; [done|].
  destruct (Ascii.eqb a c); [done|]. by destruct (split_on c t).
Qed.

Lemma split_on_no_sep c t : string_find c t 0 = None → split_on c t = [t].
Proof.
  induction t as [|a t IH]; simpl; [done|].
  destruct (Ascii.eqb a c); [done|].
  destruct (string_find c t 0); [done|]. intros _. by rewrite IH.
Qed.

Lemma split_on_sep c t p :
  string_find c t 0 = Some p →
  (p < String.length t)%nat ∧
  split_on c t = substring 0 p t :: split_on c (string_drop (S p) t).
Proof.
  revert p. induction t as [|a t IH]; intros p; simpl; [done|].
  destruct (Ascii.eqb a c).
  - intros [= <-]. split; [lia|]. simpl. by destruct t.
  - destruct (string_find c t 0) as [q|]; [|done]. intros [= <-].
    destruct (IH q eq_refl) as [Hq ->]. split; [lia|]. done.
Qed.

Section Resolution.
Variable P : Platform.
Variable W : World.

Lemma search_loop_shift fuel a l cand pos s :
  search_loop P W fuel (String a l) cand (S pos) s
  = search_loop P W fuel l cand pos s.
Proof.
  revert pos s. induction fuel as [|fuel IH]; intros pos s; [done|].
  simpl. destruct (string_find (sep P) l pos) as [p|]; simpl.
  - unfold bind. by destruct (fopen_test W _ s) as [[|] s1| |].
  - done.
Qed.

Lemma search_loop_drop fuel l cand pos s :
  (pos ≤ String.length l)%nat →
  search_loop P W fuel l cand pos s
  = search_loop P W fuel (string_drop pos l) cand 0 s.
Proof.
  revert l. induction pos as [|pos IH]; intros l Hpos; [done|].
  destruct l as [|a l]; simpl in Hpos; [lia|].
  rewrite search_loop_shift. simpl. apply IH. lia.
Qed.

(** The loop is the scan of the specification over the split search
    list; in particular the rounds allotted to it are enough. *)
Lemma search_loop_scan fuel l cand s :
  (String.length l < fuel)%nat →
  search_loop P W fuel l cand 0 s
  = scan_dirs W cand (split_on (sep P) l) s.
Proof.
  revert l s. induction fuel as [|fuel IH]; intros l s Hfuel; [lia|].
  simpl. unfold substr.
  destruct (string_find (sep P) l 0) as [p|] eqn:E.
  - destruct (split_on_sep _ _ _ E) as [Hp ->]. simpl.
    rewrite Nat.sub_0_r, string_app_assoc.
    unfold bind. destruct (fopen_test W _ s) as [[|] s1| |]; try done.
    rewrite search_loop_drop by lia. rewrite Nat.add_1_r.
    apply IH. change (String.length (string_drop (S p) l) < fuel)%nat.
    rewrite string_drop_length. lia.
  - rewrite (split_on_no_sep _ _ E). simpl.
    rewrite Nat.sub_0_r, substring_all, string_app_assoc.
    unfold bind. by destruct (fopen_test W _ s) as [[|] s1| |].
Qed.

Lemma fopen_test_true file s :
  openable W file → fopen_test W file s = Ok true (after s [Fopen file]).
Proof.
  intros H. unfold fopen_test. run_M. by rewrite bool_decide_true.
Qed.

Lemma fopen_test_false file s :
  ¬ openable W file → fopen_test W file s = Ok false (after s [Fopen file]).
Proof.
  intros H. unfold fopen_test. run_M. by rewrite bool_decide_false.
Qed.

Lemma after_after s evs1 evs2 :
  after (after s evs1) evs2 = after s (evs1 ++ evs2).
Proof. unfold after. simpl. by rewrite app_assoc. Qed.

Lemma scan_dirs_hit cand before d rest s :
  Forall (λ d', ¬ openable W (d' +:+ "/" +:+ cand)) before →
  openable W (d +:+ "/" +:+ cand) →
  scan_dirs W cand (before ++ d :: rest) s
  = Ok (d +:+ "/" +:+ cand)
       (after s (((λ d', Fopen (d' +:+ "/" +:+ cand)) <$> before) ++
                 [Fopen (d +:+ "/" +:+ cand);
                  Stderr (LogFoundPlugin (d +:+ "/" +:+ cand))])).
Proof.
  intros Hbefore Hd. revert s.
  induction Hbefore as [|d' before Hd' _ IH]; intros s; simpl.
  - unfold bind. rewrite fopen_test_true by done. run_M.
    unfold after. simpl. by rewrite <- app_assoc.
  - unfold bind. rewrite fopen_test_false by done.
    rewrite IH, after_after. done.
Qed.

Lemma scan_dirs_miss cand dirs s :
  Forall (λ d', ¬ openable W (d' +:+ "/" +:+ cand)) dirs →
  scan_dirs W cand dirs s
  = Ok cand (after s ((λ d', Fopen (d' +:+ "/" +:+ cand)) <$> dirs)).
Proof.
  intros Hdirs. revert s.
  induction Hdirs as [|d' dirs Hd' _ IH]; intros s; simpl.
  - unfold ret, after. by rewrite app_nil_r, mgr_eta.
  - unfold bind. rewrite fopen_test_false by done.
    rewrite IH, after_after. done.
Qed.

End Resolution.

Lemma bind_assoc {A B C} (m : M A) (k1 : A → M B) (k2 : B → M C) s :
  bind (bind m k1) k2 s = bind m (λ a, bind (k1 a) k2) s.
Proof. unfold bind. by destruct (m s). Qed.

Lemma locate_literal P W libPath s :
  openable W libPath →
  locate P W libPath s = Ok libPath (after s [Fopen libPath]).
Proof. intros H. unfold locate, bind. by rewrite fopen_test_true. Qed.

Lemma locate_search P W libPath s :
  ¬ openable W libPath →
  locate P W libPath s
  = match getenv W (env P) with
    | Some l =>
        scan_dirs W (prefix P +:+ libPath +:+ suffix P) (split_on (sep P) l)
          (after s [Fopen libPath])
    | None => Ok (prefix P +:+ libPath +:+ suffix P) (after s [Fopen libPath])
    end.
Proof.
  intros H. unfold locate, bind. rewrite fopen_test_false by done.
  destruct (getenv W (env P)) as [l|]; [|done].
  apply search_loop_scan. lia.
Qed.

(** *** Running the loader *)

Lemma load_attempts_app evs1 evs2 :
  load_attempts (evs1 ++ evs2) = load_attempts evs1 ++ load_attempts evs2.
Proof. apply omap_app. Qed.

Lemma load_attempts_notifications name its :
  load_attempts (notifications name its) = [].
Proof.
  induction its as [|it its IH]; [done|].
  rewrite notifications_cons, load_attempts_app, IH.
  unfold notification. destruct (decide (it.1 ≠ name)); [|done].
  by destruct (libInterface it.2).
Qed.

Lemma runs_ret {A} (Q : A → Prop) a : Q a → runs [] Q (ret a).
Proof. intros Ha s Hs. exists a, s. by rewrite app_nil_r. Qed.

Lemma runs_emit e : runs (load_attempts [e]) (λ _, True) (emit e).
Proof.
  intros s Hs. eexists tt, _. split; [reflexivity|]. split; [done|].
  split; [done|]. simpl. apply load_attempts_app.
Qed.

Lemma runs_bind {A B} att1 att2 (Q1 : A → Prop) (Q2 : B → Prop) m k :
  runs att1 Q1 m → (∀ a, Q1 a → runs att2 Q2 (k a)) →
  runs (att1 ++ att2) Q2 (bind m k).
Proof.
  intros Hm Hk s Hs.
  destruct (Hm s Hs) as (a & s1 & E1 & Ha & Hs1 & Hatt1).
  destruct (Hk a Ha s1 Hs1) as (b & s2 & E2 & Hb & Hs2 & Hatt2).
  exists b, s2. unfold bind. rewrite E1. split; [done|]. split; [done|].
  split; [done|]. by rewrite Hatt2, Hatt1, app_assoc.
Qed.

Lemma runs_weaken {A} att (Q Q' : A → Prop) m :
  (∀ a, Q a → Q' a) → runs att Q m → runs att Q' m.
Proof.
  intros HQ Hm s Hs. destruct (Hm s Hs) as (a & s1 & E1 & Ha & Hs1 & Hatt1).
  exists a, s1. auto.
Qed.

(** The common case: nothing loaded, nothing promised about the value. *)
Lemma runs_quiet_bind {A B} (Q1 : A → Prop) (Q2 : B → Prop) m k :
  runs [] Q1 m → (∀ a, Q1 a → runs [] Q2 (k a)) → runs [] Q2 (bind m k).
Proof. apply (runs_bind [] []). Qed.

Lemma runs_fopen_test W f : runs [] (λ _, True) (fopen_test W f).
Proof.
  unfold fopen_test. apply runs_quiet_bind with (λ _, True).
  - apply (runs_emit (Fopen f)).
  - intros _ _. by apply runs_ret.
Qed.

Lemma runs_scan_dirs W cand dirs : runs [] (λ _, True) (scan_dirs W cand dirs).
Proof.
  induction dirs as [|d dirs IH]; simpl; [by apply runs_ret|].
  apply runs_quiet_bind with (λ _, True); [apply runs_fopen_test|].
  intros [|] _; [|done].
  apply runs_quiet_bind with (λ _, True).
  - apply (runs_emit (Stderr (LogFoundPlugin _))).
  - intros _ _. by apply runs_ret.
Qed.

Lemma runs_locate P W libPath : runs [] (λ _, True) (locate P W libPath).
Proof.
  intros s Hs. destruct (fs W libPath) as [c|] eqn:E.
  - rewrite locate_literal by (by exists c).
    eexists _, _. split; [done|]. split; [done|]. split; [done|].
    simpl. by rewrite load_attempts_app.
  - assert (¬ openable W libPath) as Hno.
    { intros [c Hc]. unfold fs in *. congruence. }
    rewrite locate_search by done.
    assert (load_attempts (events (after s [Fopen libPath]))
            = load_attempts (events s)) as <-.
    { simpl. by rewrite load_attempts_app, app_nil_r. }
    destruct (getenv W (env P)) as [l|].
    + by apply runs_scan_dirs.
    + eexists _, _. split; [done|]. by rewrite app_nil_r.
Qed.

Lemma runs_getFunc {T} (sym : option T) name :
  runs [] (λ r, r = sym) (getFunc sym name).
Proof.
  destruct sym as [f|]; simpl; [by apply runs_ret|].
  apply runs_quiet_bind with (λ _, True).
  - apply (runs_emit (Stderr (LogNoSymbol name))).
  - intros _ _. by apply runs_ret.
Qed.

(** The factory only runs once the destroy function has been found. *)
Lemma runs_instantiate W f config :
  runs [] (λ made, is_Some made.1 → is_Some made.2) (instantiate W f config).
Proof.
  unfold instantiate, intern_loadLib.
  apply runs_quiet_bind with (λ _, True).
  { apply runs_quiet_bind with (λ _, True); [apply (runs_emit (Dlopen f))|].
    intros _ _. destruct (dlopen W f); [by apply runs_ret|].
    apply runs_quiet_bind with (λ _, True);
      [apply (runs_emit (Stderr (LogCannotLoad f)))|].
    intros _ _. by apply runs_ret. }
  intros [h|] _; [|apply runs_ret; simpl; by intros [? ?]].
  apply runs_quiet_bind with (λ r, r = sym_destroy_c h); [apply runs_getFunc|].
  intros destroyFunc ->.
  destruct (sym_destroy_c h) as [d|];
    [|apply runs_ret; simpl; by intros [? ?]].
  destruct config as [c|].
  - apply runs_quiet_bind with (λ _, True);
      [eapply runs_weaken; [|apply runs_getFunc]; done|].
    intros [create2|] _; [|apply runs_ret; simpl; by intros [? ?]].
    apply runs_quiet_bind with (λ _, True);
      [apply (runs_emit (CallCreate _ _))|].
    intros _ _. apply runs_ret. simpl. by eexists.
  - apply runs_quiet_bind with (λ _, True);
      [eapply runs_weaken; [|apply runs_getFunc]; done|].
    intros [create|] _; [|apply runs_ret; simpl; by intros [? ?]].
    apply runs_quiet_bind with (λ _, True);
      [apply (runs_emit (CallCreate _ _))|].
    intros _ _. apply runs_ret. simpl. by eexists.
Qed.

Lemma runs_addLibrary l d p : runs [] (λ _, True) (addLibrary l d p).
Proof.
  intros s Hs. pose proof (preserves_addLibrary l d p s Hs) as Hp.
  destruct l as [i|]; [|exists LIBMGR_ERR_NO_LIBRARY, s; by rewrite app_nil_r].
  destruct (libMap s !! getLibName i) as [r|] eqn:E.
  - rewrite (addLibrary_conflict _ _ _ _ r) in * by done.
    eexists _, _. split; [done|]. split; [done|]. split; [done|].
    simpl. by rewrite load_attempts_app.
  - rewrite addLibrary_fresh in * by done.
    eexists _, _. split; [done|]. split; [done|]. split; [done|].
    simpl. rewrite load_attempts_app. f_equal.
    apply (load_attempts_notifications (getLibName i)).
Qed.

(** [loadLibrary] always returns, and counts as one attempt. *)
Lemma runs_loadLibrary P W libPath config :
  runs [libPath] (λ _, True) (loadLibrary P W libPath config).
Proof.
  unfold loadLibrary.
  apply (runs_bind [libPath] [] (λ _, True));
    [apply (runs_emit (Stderr (LogLoadPlugin libPath)))|].
  intros _ _. apply runs_quiet_bind with (λ _, True); [apply runs_locate|].
  intros filepath _.
  apply runs_quiet_bind with (λ made, is_Some made.1 → is_Some made.2);
    [apply runs_instantiate|].
  intros [interface destroyFunc] Hmade. simpl in *.
  destruct interface as [i|]; [|by apply runs_ret].
  destruct Hmade as [f ->]; [done|].
  apply runs_quiet_bind with (λ _, True); [apply runs_addLibrary|].
  intros error _. apply runs_quiet_bind with (λ _, True).
  - destruct (decide (error ≠ LIBMGR_NO_ERROR)); [|by apply runs_ret].
    apply (runs_emit (Destroy f (Some i))).
  - intros _ _. by apply runs_ret.
Qed.

(** *** What the loader is called with *)

Lemma extends_ret {A} (a : A) : extends (ret a).
Proof. intros s a' s' [= _ <-]. done. Qed.

Lemma extends_emit e : extends (emit e).
Proof. intros s a' s' [= _ <-]. simpl. by apply prefix_app_r. Qed.

Lemma extends_getMap : extends getMap.
Proof. intros s a' s' [= _ <-]. done. Qed.

Lemma extends_putMap m : extends (putMap m).
Proof. intros s a' s' [= _ <-]. done. Qed.

Lemma extends_undef {A} : extends (@undef A).
Proof. intros s a' s' [=]. Qed.

Lemma extends_bind {A B} (m : M A) (k : A → M B) :
  extends m → (∀ a, extends (k a)) → extends (bind m k).
Proof.
  intros Hm Hk s b s' H. apply bind_Ok in H as (a & s1 & H1 & H2).
  etrans; [by eapply Hm|by eapply Hk].
Qed.

Create HintDb extends.
#[local] Hint Resolve extends_ret extends_emit extends_getMap extends_putMap
  extends_undef : extends.

Ltac extends_tac :=
  repeat first
    [ solve [eauto with extends]
    | apply extends_bind; [|intros ?]
    | match goal with
      | |- extends (match ?x with _ => _ end) => destruct x
      | |- extends (if ?x then _ else _) => destruct x
      end ].

Lemma extends_notify_loop name its : extends (notify_loop name its).
Proof.
  induction its as [|[k r] its IH]; simpl; [eauto with extends|].
  apply extends_bind; [|done]. extends_tac.
Qed.

#[local] Hint Resolve extends_notify_loop : extends.

Lemma extends_addLibrary l d p : extends (addLibrary l d p).
Proof. unfold addLibrary. extends_tac. Qed.

#[local] Hint Resolve extends_addLibrary : extends.

(** [instantiate] starts by calling the loader on the file it is given. *)
Lemma instantiate_trace W filepath config s made s' :
  instantiate W filepath config s = Ok made s' →
  events s ++ [Dlopen filepath] `prefix_of` events s'.
Proof.
  unfold instantiate, intern_loadLib. rewrite !bind_assoc. intros H.
  apply bind_Ok in H as ([] & s1 & Hs1 & H).
  assert (events s1 = events s ++ [Dlopen filepath]) as <-
    by (by inversion Hs1).
  clear Hs1. cbv beta in H. revert H.
  match goal with
  | |- ?m s1 = _ → _ => assert (extends m) as Hm; [|by apply Hm]
  end.
  unfold getFunc. extends_tac.
Qed.

Lemma loadLibrary_trace P W libPath config s filepath s1 e s' :
  (emit (Stderr (LogLoadPlugin libPath)) ;;; locate P W libPath) s
    = Ok filepath s1 →
  loadLibrary P W libPath config s = Ok e s' →
  events s1 ++ [Dlopen filepath] `prefix_of` events s'.
Proof.
  intros Hloc Hload. unfold loadLibrary in Hload.
  rewrite <- (bind_assoc (emit (Stderr (LogLoadPlugin libPath)))
                (λ _, locate P W libPath)) in Hload.
  unfold bind at 1 in Hload. rewrite Hloc in Hload.
  apply bind_Ok in Hload as (made & s2 & Hmade & Hrest).
  etrans; [by eapply instantiate_trace|].
  cbv beta in Hrest. revert Hrest.
  match goal with
  | |- ?m s2 = _ → _ => assert (extends m) as Hm; [|by apply Hm]
  end.
  extends_tac.
Qed.

(** C6.  How [loadLibrary] settles on the file it hands to the loader.
    - A name that [fopen] can open is used as it is.
    - Otherwise the name is decorated, and the directories of the search
      list are probed from the first to the last; the first one in which
      [directory/candidate] opens wins and nothing is probed after it.  So
      with three directories of which the first lacks the file and the
      second has it, the second one's path is the answer and the third is
      not looked at.
    - With no search list, or no directory holding the file, the decorated
      name goes to the loader as it is.
    - [loadLibrary] returns, and the first thing it does once the file is
      settled is to call the loader, [intern_loadLib], on that file. *)
Theorem locate_resolution_order P W libPath config s :
  let candidate := prefix P +:+ libPath +:+ suffix P in
  let file d := d +:+ "/" +:+ candidate in
  (openable W libPath →
   locate P W libPath s = Ok libPath (after s [Fopen libPath])) ∧
  (¬ openable W libPath →
   (getenv W (env P) = None →
    locate P W libPath s = Ok candidate (after s [Fopen libPath])) ∧
   (∀ l, getenv W (env P) = Some l →
    (∀ before d rest,
       split_on (sep P) l = before ++ d :: rest →
       Forall (λ d', ¬ openable W (file d')) before →
       openable W (file d) →
       locate P W libPath s
       = Ok (file d)
            (after s (Fopen libPath :: ((λ d', Fopen (file d')) <$> before) ++
                        [Fopen (file d); Stderr (LogFoundPlugin (file d))]))) ∧
    (∀ d1 d2 d3,
       split_on (sep P) l = [d1; d2; d3] →
       ¬ openable W (file d1) →
       openable W (file d2) →
       locate P W libPath s
       = Ok (file d2)
            (after s [Fopen libPath; Fopen (file d1); Fopen (file d2);
                      Stderr (LogFoundPlugin (file d2))])) ∧
    (Forall (λ d, ¬ openable W (file d)) (split_on (sep P) l) →
     locate P W libPath s
     = Ok candidate
          (after s (Fopen libPath ::
                      ((λ d, Fopen (file d)) <$> split_on (sep P) l)))))) ∧
  (reachable s →
   ∃ filepath s1 e s' rest,
     (emit (Stderr (LogLoadPlugin libPath)) ;;; locate P W libPath) s
       = Ok filepath s1 ∧
     loadLibrary P W libPath config s = Ok e s' ∧
     events s' = events s1 ++ Dlopen filepath :: rest).
Proof.
  intros candidate file. split; [apply locate_literal|]. split.
  - intros Hlit. split; [|intros l Hl; split; [|split]].
    + intros Henv. rewrite locate_search by done. by rewrite Henv.
    + intros before d rest Hsplit Hbefore Hd.
      rewrite locate_search by done. rewrite Hl, Hsplit.
      rewrite (scan_dirs_hit W candidate before d rest) by done.
      by rewrite after_after.
    + intros d1 d2 d3 Hsplit Hd1 Hd2.
      rewrite locate_search by done. rewrite Hl, Hsplit.
      rewrite (scan_dirs_hit W candidate [d1] d2 [d3]);
        [|by repeat constructor|done].
      by rewrite after_after.
    + intros Hnone. rewrite locate_search by done. rewrite Hl.
      rewrite scan_dirs_miss by done. by rewrite after_after.
  - intros Hs. apply reachable_inv in Hs.
    destruct (runs_bind [libPath] [] (λ _, True) (λ _, True) _ _
                (runs_emit (Stderr (LogLoadPlugin libPath)))
                (λ _ _, runs_locate P W libPath) s Hs)
      as (filepath & s1 & Hloc & _).
    destruct (runs_loadLibrary P W libPath config s Hs)
      as (e & s' & Hload & _).
    destruct (loadLibrary_trace _ _ _ _ _ _ _ _ _ Hloc Hload) as [rest Hrest].
    exists filepath, s1, e, s', rest. rewrite Hrest, <- app_assoc. done.
Qed.

Lemma locate_resolution_order_witness :
  ¬ openable foo_world "foo" ∧
  getenv foo_world (env platform_posix) = Some "/usr/lib:/opt/lib:/x" ∧
  split_on (sep platform_posix) "/usr/lib:/opt/lib:/x"
    = ["/usr/lib"; "/opt/lib"; "/x"] ∧
  ¬ openable foo_world "/usr/lib/libfoo.so" ∧
  openable foo_world "/opt/lib/libfoo.so" ∧
  locate platform_posix foo_world "foo" LibManager_new
  = Ok "/opt/lib/libfoo.so"
       (after LibManager_new
          [Fopen "foo"; Fopen "/usr/lib/libfoo.so"; Fopen "/opt/lib/libfoo.so";
           Stderr (LogFoundPlugin "/opt/lib/libfoo.so")]).
Proof.
  assert (¬ openable foo_world "foo") as H0
    by (intros [x Hx]; vm_compute in Hx; discriminate).
  assert (¬ openable foo_world "/usr/lib/libfoo.so") as H1
    by (intros [x Hx]; vm_compute in Hx; discriminate).
  assert (openable foo_world "/opt/lib/libfoo.so") as H2
    by (exists ""; vm_compute; reflexivity).
  split; [exact H0|]. split; [reflexivity|]. split; [reflexivity|].
  split; [exact H1|]. split; [exact H2|].
  destruct (locate_resolution_order platform_posix foo_world "foo" None
              LibManager_new) as (_ & Hsearch & _).
  destruct (Hsearch H0) as (_ & Hlist).
  destruct (Hlist "/usr/lib:/opt/lib:/x" eq_refl) as (_ & Hthree & _).
  exact (Hthree "/usr/lib" "/opt/lib" "/x" eq_refl H1 H2).
Defined.

(** ** Config files *)

(** *** Trimming *)

Lemma c_str_no_nul t : occurs "000" t = false → c_str t = t.
Proof.
  induction t as [|a t IH]; simpl; [done|].
  destruct (Ascii.eqb a "000"); simpl; [done|]. intros H. by rewrite IH.
Qed.

Lemma occurs_app c t u : occurs c (t +:+ u) = occurs c t || occurs c u.
Proof.
  induction t as [|a t IH]; [done|].
  rewrite string_app_cons. simpl. by rewrite IH, orb_assoc.
Qed.

Lemma string_length_app t u :
  String.length (t +:+ u) = (String.length t + String.length u)%nat.
Proof.
  induction t as [|a t IH]; [done|].
  rewrite string_app_cons. simpl. by rewrite IH.
Qed.

Lemma find_first_None t : find_first_not_of_ws t = None → lstrip t = "".
Proof.
  induction t as [|a t IH]; simpl; [done|].
  destruct (is_ws a); [|done].
  destruct (find_first_not_of_ws t); [done|]. auto.
Qed.

Lemma find_first_None_last t :
  find_first_not_of_ws t = None → find_last_not_of_ws t = None.
Proof.
  induction t as [|a t IH]; simpl; [done|].
  destruct (is_ws a); [|done].
  destruct (find_first_not_of_ws t); [done|]. intros _. by rewrite IH.
Qed.

Lemma rstrip_find_last u :
  match find_last_not_of_ws u with
  | Some q => rstrip u = substring 0 (S q) u ∧ rstrip u ≠ ""
  | None => rstrip u = ""
  end.
Proof.
  induction u as [|a u IH]; simpl; [done|].
  destruct (find_last_not_of_ws u) as [q|].
  - destruct IH as [IH Hne]. rewrite <- IH.
    by destruct (rstrip u).
  - rewrite IH. destruct (is_ws a); [done|]. split; [|done].
    by destruct u.
Qed.

Lemma find_first_cons a t :
  find_first_not_of_ws (String a t)
  = if is_ws a then S <$> find_first_not_of_ws t else Some O.
Proof. reflexivity. Qed.

Lemma find_last_cons a t :
  find_last_not_of_ws (String a t)
  = match find_last_not_of_ws t with
    | Some p => Some (S p)
    | None => if is_ws a then None else Some O
    end.
Proof. reflexivity. Qed.

Lemma lstrip_cons a t :
  lstrip (String a t) = if is_ws a then lstrip t else String a t.
Proof. reflexivity. Qed.

(** What lines 342-347 compute is the trimmed buffer. *)
Lemma trim_positions t :
  match find_first_not_of_ws t, find_last_not_of_ws t with
  | Some pos1, Some pos2 =>
      substr t pos1 (pos2 - pos1 + 1) = trim t ∧ trim t ≠ ""
  | _, _ => trim t = ""
  end.
Proof.
  unfold trim, substr. induction t as [|a t IH]; [done|].
  rewrite find_first_cons, find_last_cons, lstrip_cons.
  destruct (is_ws a) eqn:Ha.
  - destruct (find_first_not_of_ws t) as [p1|];
      destruct (find_last_not_of_ws t) as [p2|]; simpl; done.
  - pose proof (rstrip_find_last (String a t)) as H.
    rewrite find_last_cons, Ha in H.
    destruct (find_last_not_of_ws t) as [p2|];
      rewrite Nat.sub_0_r, Nat.add_1_r; destruct H as [<- H]; done.
Qed.

Lemma plugin_of_buffer_trim t :
  occurs "000" t = false → plugin_of_buffer t = plugin_of_line t.
Proof.
  intros Hnul. unfold plugin_of_buffer, plugin_of_line.
  rewrite (c_str_no_nul t Hnul).
  pose proof (trim_positions t) as H.
  destruct (find_first_not_of_ws t) as [p1|].
  - destruct (find_last_not_of_ws t) as [p2|].
    + destruct H as [-> Hne]. destruct (trim t) as [|a t']; [done|].
      by destruct a as [[] [] [] [] [] [] [] []].
    + by rewrite H.
  - by rewrite H.
Qed.

Lemma rstrip_newline u : rstrip (u +:+ LF) = rstrip u.
Proof.
  induction u as [|a u IH]; [done|].
  rewrite string_app_cons. simpl. by rewrite IH.
Qed.

Lemma lstrip_newline t :
  lstrip (t +:+ LF) = match lstrip t with "" => "" | u => u +:+ LF end.
Proof.
  induction t as [|a t IH]; [done|].
  rewrite string_app_cons. simpl. destruct (is_ws a); [done|].
  by rewrite string_app_cons.
Qed.

Lemma trim_newline t : trim (t +:+ LF) = trim t.
Proof.
  unfold trim. rewrite lstrip_newline.
  destruct (lstrip t) as [|a u] eqn:E; [done|].
  by rewrite rstrip_newline.
Qed.

Lemma plugin_of_line_newline t : plugin_of_line (t +:+ LF) = plugin_of_line t.
Proof. unfold plugin_of_line. by rewrite trim_newline. Qed.

(** *** Lines and pieces *)

Lemma string_app_nil_r t : t +:+ "" = t.
Proof.
  induction t as [|a t IH]; [done|]. by rewrite string_app_cons, IH.
Qed.

Lemma split_on_app c b r :
  occurs c b = false →
  split_on c (b +:+ r)
  = match split_on c r with
    | l :: ls => (b +:+ l) :: ls
    | [] => [b]
    end.
Proof.
  induction b as [|a b IH]; intros Hb.
  - change ("" +:+ r) with r.
    destruct (split_on c r) eqn:E; [by apply split_on_not_nil in E|done].
  - rewrite string_app_cons. simpl in Hb.
    apply orb_false_elim in Hb as [Ha Hb].
    simpl. rewrite Ha, IH by done. by destruct (split_on c r).
Qed.

Lemma split_on_line c p r :
  occurs c p = false → split_on c (p +:+ String c r) = p :: split_on c r.
Proof.
  intros Hp. rewrite split_on_app by done.
  simpl. rewrite Ascii.eqb_refl. by rewrite string_app_nil_r.
Qed.

(** The lines of a file are what lies between its newlines. *)
Lemma split_on_file_of_lines lines last :
  Forall (λ l, occurs "010" l = false) lines → occurs "010" last = false →
  split_on "010" (file_of_lines lines last) = lines ++ [last].
Proof.
  intros Hlines Hlast. induction Hlines as [|l lines Hl _ IH]; simpl.
  - rewrite <- (string_app_nil_r last) at 1.
    rewrite split_on_app by done. simpl. by rewrite string_app_nil_r.
  - change (LF +:+ ?r) with (String "010" r).
    rewrite split_on_line by done. by rewrite IH.
Qed.

Lemma substring_prefix b r : substring 0 (String.length b) (b +:+ r) = b.
Proof.
  induction b as [|a b IH]; [by destruct r|].
  rewrite string_app_cons. simpl. by rewrite IH.
Qed.

Lemma string_drop_prefix b r : string_drop (String.length b) (b +:+ r) = r.
Proof. induction b as [|a b IH]; [done|]. by rewrite string_app_cons. Qed.

Lemma substring_short t n :
  (String.length t ≤ n)%nat → substring 0 n t = t.
Proof.
  revert n. induction t as [|a t IH]; intros [|n] H; simpl in *;
    [done|done|lia|].
  rewrite IH; [done|lia].
Qed.

Lemma string_drop_short t n :
  (String.length t ≤ n)%nat → string_drop n t = "".
Proof.
  revert n. induction t as [|a t IH]; intros [|n] H; simpl in *;
    [done|done|lia|].
  apply IH. lia.
Qed.

(** More rounds than the text has bytes change nothing. *)
Lemma pieces_fuel f1 f2 n t :
  (0 < n)%nat → (String.length t ≤ f1)%nat → (String.length t ≤ f2)%nat →
  pieces f1 n t = pieces f2 n t.
Proof.
  intros Hn. revert f2 t. induction f1 as [|f1 IH]; intros f2 t H1 H2.
  - destruct t; [by destruct f2|simpl in H1; lia].
  - destruct t as [|a t]; [by destruct f2|].
    destruct f2 as [|f2]; [simpl in H2; lia|].
    unfold pieces. fold pieces. f_equal.
    simpl in H1, H2.
    apply IH; rewrite string_drop_length; simpl; lia.
Qed.

Lemma line_pieces_full b l :
  String.length b = (maxChars - 1)%nat →
  line_pieces (b +:+ l) = b :: line_pieces l.
Proof.
  intros Hb. unfold line_pieces. rewrite <- Hb.
  destruct b as [|a b]; [done|].
  rewrite string_length_app.
  change (String.length (String a b) + String.length l)%nat
    with (S (String.length b + String.length l)).
  change (String a b +:+ l) with (String a (b +:+ l)) at 1.
  unfold pieces at 1. fold pieces.
  change (String a (b +:+ l)) with (String a b +:+ l).
  rewrite substring_prefix, string_drop_prefix. f_equal.
  apply pieces_fuel; rewrite ?Hb; unfold maxChars; simpl; lia.
Qed.

Lemma line_pieces_short l :
  l ≠ "" → (String.length l ≤ maxChars - 1)%nat → line_pieces l = [l].
Proof.
  intros Hne Hlen. destruct l as [|a l]; [done|].
  unfold line_pieces.
  change (String.length (String a l)) with (S (String.length l)).
  unfold pieces. fold pieces.
  rewrite substring_short, string_drop_short by done.
  by destruct (String.length l).
Qed.

Lemma omap_cons_app {A B} (f : A → option B) x (l : list A) :
  omap f (x :: l) = option_list (f x) ++ omap f l.
Proof. simpl. by destruct (f x). Qed.

Lemma line_attempts_short l :
  (String.length l ≤ maxChars - 1)%nat →
  line_attempts l = option_list (plugin_of_line (c_str l)).
Proof.
  intros Hlen. destruct l as [|a l]; [done|].
  unfold line_attempts. rewrite line_pieces_short by done.
  by rewrite omap_cons_app, app_nil_r.
Qed.

Lemma line_attempts_full b l :
  String.length b = (maxChars - 1)%nat →
  line_attempts (b +:+ l)
  = option_list (plugin_of_line (c_str b)) ++ line_attempts l.
Proof.
  intros Hb. unfold line_attempts.
  by rewrite line_pieces_full, omap_cons_app.
Qed.

(** *** One buffer *)

Lemma c_str_idem t : c_str (c_str t) = c_str t.
Proof.
  induction t as [|a t IH]; simpl; [done|].
  destruct (Ascii.eqb a "000") eqn:Ha; simpl; [done|]. by rewrite Ha, IH.
Qed.

Lemma c_str_nul t : occurs "000" (c_str t) = false.
Proof.
  induction t as [|a t IH]; simpl; [done|].
  destruct (Ascii.eqb a "000") eqn:Ha; simpl; [done|]. by rewrite Ha, IH.
Qed.

(** Lines 340-351 cut the buffer at its first NUL, trim it and drop it
    when it is blank or a comment. *)
Lemma plugin_of_buffer_c_str t :
  plugin_of_buffer t = plugin_of_line (c_str t).
Proof.
  rewrite <- (plugin_of_buffer_trim (c_str t)) by apply c_str_nul.
  unfold plugin_of_buffer. by rewrite c_str_idem.
Qed.

Lemma c_str_newline p :
  plugin_of_line (c_str (p +:+ LF)) = plugin_of_line (c_str p).
Proof.
  assert (c_str (p +:+ LF) = c_str p ∨ c_str (p +:+ LF) = c_str p +:+ LF)
    as [->| ->]; [|done|apply plugin_of_line_newline].
  induction p as [|a p IH]; [by right|].
  rewrite string_app_cons. simpl.
  destruct (Ascii.eqb a "000"); [by left|].
  destruct IH as [->| ->]; [by left|by right].
Qed.

(** *** Reading *)

Lemma fgets_split n content buf rest :
  fgets n content = (buf, rest) →
  buf +:+ rest = content ∧ (String.length buf ≤ n)%nat.
Proof.
  revert content buf rest.
  induction n as [|n IH]; intros content buf rest.
  - unfold fgets. intros [= <- <-]. split; [done|simpl; lia].
  - unfold fgets. fold fgets. destruct content as [|a content].
    + intros [= <- <-]. split; [done|simpl; lia].
    + destruct (Ascii.eqb a "010"); [intros [= <- <-]; split; [done|simpl; lia]|].
      destruct (fgets n content) as [buf' rest'] eqn:E.
      intros [= <- <-]. destruct (IH _ _ _ E) as [Happ Hlen].
      rewrite string_app_cons, Happ. split; [done|simpl; lia].
Qed.

Lemma fgets_eof n content rest :
  fgets (S n) content = ("", rest) → content = "".
Proof.
  unfold fgets. fold fgets. destruct content as [|a content]; [done|].
  destruct (Ascii.eqb a "010"); [done|].
  by destruct (fgets n content).
Qed.

(** A buffer ends with the newline of its line; or it holds no newline, and
    then it is full or reaches the end of the file. *)
Lemma fgets_cases n content buf rest :
  fgets n content = (buf, rest) →
  (∃ p, buf = p +:+ LF ∧ occurs "010" p = false ∧
        (String.length p < n)%nat) ∨
  (occurs "010" buf = false ∧ (String.length buf = n ∨ rest = "")).
Proof.
  revert content buf rest.
  induction n as [|n IH]; intros content buf rest.
  - unfold fgets. intros [= <- <-]. right. split; [done|by left].
  - unfold fgets. fold fgets. destruct content as [|a content].
    + intros [= <- <-]. right. split; [done|by right].
    + destruct (Ascii.eqb a "010") eqn:Ha.
      * intros [= <- <-]. left. exists "".
        apply Ascii.eqb_eq in Ha as ->.
        split; [done|]. split; [done|simpl; lia].
      * destruct (fgets n content) as [buf' rest'] eqn:E.
        intros [= <- <-].
        destruct (IH _ _ _ E) as [(p & -> & Hp & Hlen)|[Hb Hor]].
        -- left. exists (String a p). rewrite string_app_cons.
           split; [done|]. simpl. rewrite Ha. split; [done|lia].
        -- right. simpl. rewrite Ha. split; [done|].
           destruct Hor as [<-| ->]; [by left|by right].
Qed.

(** *** The read loop *)

Lemma runs_attempts {A} att att' (Q : A → Prop) m :
  att = att' → runs att Q m → runs att' Q m.
Proof. by intros ->. Qed.

Lemma runs_any_buffer P W buf :
  runs (option_list (plugin_of_buffer buf)) (λ _, True)
    (match plugin_of_buffer buf with
     | Some plugin_path => loadLibrary P W plugin_path None ;;; ret tt
     | None => ret tt
     end).
Proof.
  destruct (plugin_of_buffer buf) as [p|]; simpl; [|by apply runs_ret].
  apply (runs_bind [p] [] (λ _, True)); [apply runs_loadLibrary|].
  intros _ _. by apply runs_ret.
Qed.

Lemma config_loop_runs P W fuel content :
  runs (omap plugin_of_buffer (read_buffers fuel content)) (λ _, True)
    (config_loop P W fuel content).
Proof.
  revert content. induction fuel as [|fuel IH]; intros content;
    [by apply runs_ret|].
  simpl. destruct (fgets _ content) as [[|a buf] rest]; [by apply runs_ret|].
  apply (runs_attempts
           (option_list (plugin_of_buffer (String a buf)) ++
            omap plugin_of_buffer (read_buffers fuel rest))).
  { simpl. by destruct (plugin_of_buffer (String a buf)). }
  apply runs_bind with (λ _, True); [apply runs_any_buffer|].
  intros _ _. apply IH.
Qed.

Lemma loadConfigFile_runs P W config_file :
  runs (match fs W config_file with
        | Some content =>
            omap plugin_of_buffer
              (read_buffers (S (String.length content)) content)
        | None => []
        end) (λ _, True) (loadConfigFile P W config_file).
Proof.
  unfold loadConfigFile.
  apply (runs_bind [] _ (λ _, True)); [apply (runs_emit (Fopen _))|].
  intros _ _. destruct (fs W config_file) as [content|].
  - apply config_loop_runs.
  - apply (runs_emit (Stderr (LogConfigNotFound _))).
Qed.

(** The buffers of a file never straddle two lines: what they load is what
    the lines load, one line after the other. *)
Lemma read_buffers_lines fuel content :
  (String.length content < fuel)%nat →
  omap plugin_of_buffer (read_buffers fuel content)
  = concat (line_attempts <$> split_on "010" content).
Proof.
  revert content. induction fuel as [|fuel IH]; intros content Hfuel; [lia|].
  unfold read_buffers. fold read_buffers.
  destruct (fgets (maxChars - 1) content) as [buf rest] eqn:E.
  destruct buf as [|a buf]; [by apply fgets_eof in E as ->|].
  destruct (fgets_split _ _ _ _ E) as [<- Hlen].
  assert (String.length rest < fuel)%nat as Hrest.
  { rewrite string_length_app in Hfuel. simpl in Hfuel. lia. }
  rewrite omap_cons_app, plugin_of_buffer_c_str, (IH rest Hrest).
  destruct (fgets_cases _ _ _ _ E) as [(p & Hbuf & Hp & Hplen)|[Hb Hor]].
  - rewrite Hbuf, string_app_assoc.
    change (LF +:+ rest) with (String "010" rest).
    rewrite split_on_line by done.
    rewrite fmap_cons, concat_cons, c_str_newline.
    by rewrite line_attempts_short by lia.
  - rewrite split_on_app by done.
    destruct (split_on "010" rest) as [|l ls] eqn:El;
      [by apply split_on_not_nil in El|].
    rewrite !fmap_cons, !concat_cons, app_assoc. f_equal.
    destruct Hor as [Hfull| ->].
    + by rewrite line_attempts_full.
    + injection El as <- <-.
      rewrite string_app_nil_r, app_nil_r.
      by rewrite line_attempts_short.
Qed.

(** C8, as the code has it.  Whatever the config file holds,
    [loadConfigFile] returns, and what it loads is what its lines load, one
    line after the other: every line is taken in consecutive pieces of at
    most 254 bytes (the buffer of [maxChars = 255] less its terminator),
    and every piece is handled as a line of its own, cut at its first NUL
    and trimmed, and loaded unless it is blank or starts with [#].  So a
    line of at most 254 bytes without NUL is treated whole, whatever the
    other lines are: exactly one [loadLibrary] call, on the whole trimmed
    line, or none when it is blank or a comment. *)
Theorem loadConfigFile_line_by_line P W config_file content s :
  reachable s →
  fs W config_file = Some content →
  ∃ s',
    loadConfigFile P W config_file s = Ok tt s' ∧
    load_attempts (events s')
    = load_attempts (events s) ++
      concat (line_attempts <$> split_on "010" content) ∧
    ∀ l, l ∈ split_on "010" content →
      (String.length l ≤ maxChars - 1)%nat → occurs "000" l = false →
      line_attempts l = option_list (plugin_of_line l).
Proof.
  intros Hs Hfile. apply reachable_inv in Hs.
  destruct (loadConfigFile_runs P W config_file s Hs)
    as ([] & s' & Hrun & _ & _ & Hatt).
  rewrite Hfile, read_buffers_lines in Hatt by lia.
  exists s'. split; [done|]. split; [done|].
  intros l _ Hlen Hnul.
  by rewrite line_attempts_short, c_str_no_nul.
Qed.

Lemma loadConfigFile_line_by_line_witness :
  reachable LibManager_new ∧
  fs mixed_world "plugins.txt" = Some mixed_text ∧
  ∃ s',
    loadConfigFile platform_posix mixed_world "plugins.txt" LibManager_new
      = Ok tt s' ∧
    load_attempts (events s')
    = load_attempts (events LibManager_new) ++
      concat (line_attempts <$> split_on "010" mixed_text) ∧
    ∀ l, l ∈ split_on "010" mixed_text →
      (String.length l ≤ maxChars - 1)%nat → occurs "000" l = false →
      line_attempts l = option_list (plugin_of_line l).
Proof.
  split; [apply reachable_new|]. split; [reflexivity|].
  apply (loadConfigFile_line_by_line platform_posix mixed_world "plugins.txt"
           mixed_text LibManager_new).
  - apply reachable_new.
  - reflexivity.
Defined.

(** The lines of that file, and what they load: the long line goes in two
    pieces, the comment is skipped, the two names are loaded trimmed. *)
Example mixed_text_attempts :
  split_on "010" mixed_text = [long_line; "# note"; "beta"; "  gamma"] ∧
  concat (line_attempts <$> split_on "010" mixed_text)
  = [string_repeat 254 "a"; string_repeat 46 "a"; "beta"; "gamma"].
Proof. split; vm_compute; reflexivity. Qed.

(** A line of exactly 254 bytes still goes in one piece.  Of a longer
    line, every piece is a line of its own: trailing blanks beyond the
    first piece load nothing, the tail of a long comment is loaded. *)
Example line_attempts_at_the_cap :
  line_attempts (string_repeat 254 "a") = [string_repeat 254 "a"] ∧
  line_attempts (string_repeat 255 "a") = [string_repeat 254 "a"; "a"] ∧
  line_attempts ("abc" +:+ string_repeat 300 " ") = ["abc"] ∧
  line_attempts ("#" +:+ string_repeat 300 "x") = [string_repeat 47 "x"].
Proof. repeat split; vm_compute; reflexivity. Qed.

(** The five-line file makes two attempts, in file order. *)
Example five_lines_attempts :
  omap plugin_of_line (five_lines ++ [""]) = ["alpha"; "beta"].
Proof. reflexivity. Qed.

(** C8, as stated, fails: a line of 300 letters is not loaded as one name
    but as two, the first 254 bytes and the remaining 46. *)
Lemma long_line_is_split :
  ∃ s',
    loadConfigFile platform_posix long_world "plugins.txt" LibManager_new
      = Ok tt s' ∧
    load_attempts (events s')
      = [string_repeat 254 "a"; string_repeat 46 "a"] ∧
    load_attempts (events s') ≠ [trim long_line].
Proof.
  eexists. split; [vm_compute; reflexivity|].
  split; [vm_compute; reflexivity|]. vm_compute. discriminate.
Qed.

(** ** The loop bounds are never reached *)

Lemma fgets_length n content buf rest :
  fgets n content = (buf, rest) →
  String.length content = (String.length buf + String.length rest)%nat.
Proof.
  revert content buf rest.
  induction n as [|n IH]; intros content buf rest.
  - unfold fgets. by intros [= <- <-].
  - unfold fgets. fold fgets. destruct content as [|a content].
    + by intros [= <- <-].
    + destruct (Ascii.eqb a "010"); [by intros [= <- <-]|].
      destruct (fgets n content) as [buf' rest'] eqn:E.
      intros [= <- <-]. simpl. by rewrite (IH _ _ _ E).
Qed.

(** More rounds than the file has bytes change nothing. *)
Lemma config_loop_fuel P W fuel1 fuel2 content :
  (String.length content < fuel1)%nat → (String.length content < fuel2)%nat →
  config_loop P W fuel1 content = config_loop P W fuel2 content.
Proof.
  revert fuel2 content.
  induction fuel1 as [|fuel1 IH]; intros fuel2 content H1 H2; [lia|].
  destruct fuel2 as [|fuel2]; [lia|].
  simpl. destruct (fgets _ content) as [buf rest] eqn:E.
  apply fgets_length in E.
  destruct buf as [|a buf]; [done|]. simpl in E.
  by rewrite (IH fuel2 rest) by lia.
Qed.

(** [clearLibraries] stops because no record with a zero count is left,
    not because it ran out of rounds. *)
Lemma clearLibraries_loop_fuel fuel s :
  (size (libMap s) < fuel)%nat →
  post (λ s', map_Forall (λ _ r, useCount r ≠ 0) (libMap s'))
    (clearLibraries_loop fuel s).
Proof.
  revert s. induction fuel as [|fuel IH]; intros s Hfuel; [lia|].
  unfold clearLibraries_loop. fold clearLibraries_loop. run_M.
  destruct (list_find _ _) as [[j [k r]]|] eqn:E.
  - apply list_find_Some in E as (Hj & _ & _).
    apply list_elem_of_lookup_2, elem_of_entries in Hj.
    assert (size (delete k (libMap s)) < fuel)%nat as Hsize.
    { destruct (decide (size (libMap s) = 0%nat)) as [Hz|Hz].
      - apply map_size_empty_inv in Hz. by rewrite Hz, lookup_empty in Hj.
      - rewrite map_size_delete, Hj. simpl. lia. }
    destruct (destroy r); simpl; by apply IH.
  - simpl. intros k r Hk. apply elem_of_entries in Hk.
    rewrite list_find_None, Forall_forall in E. by apply (E (k, r)).
Qed.

Lemma clearLibraries_complete s :
  post (λ s', map_Forall (λ _ r, useCount r ≠ 0) (libMap s')) (clearLibraries s).
Proof.
  unfold clearLibraries, bind, getMap. apply clearLibraries_loop_fuel. lia.
Qed.

(** * Further properties *)

(** ** Looking names up *)

Lemma post_absent_dom {A} (s : LibManager) (o : outcome A) :
  (∀ k, libMap s !! k = None → post (λ s', libMap s' !! k = None) o) →
  post (λ s', dom (libMap s') ⊆ dom (libMap s)) o.
Proof.
  intros H. destruct o as [a s'|s'|]; simpl in *; [| |done];
    intros k Hk; destruct (libMap s !! k) eqn:E;
    try (by apply elem_of_dom); apply elem_of_dom in Hk as [x Hx];
    by rewrite (H k E) in Hx.
Qed.

Lemma post_then_ret {A} Q (m : M A) s :
  post Q ((m ;;; ret tt) s) ↔ post Q (m s).
Proof. unfold bind, ret. by destruct (m s). Qed.

(** X1.  [acquireLibrary], [releaseLibrary] and [unloadLibrary] never
    register a name: whether they return or throw, every name known
    afterwards was known before.  In particular [libMap[libName]] never
    default-constructs a record for a name that was asked for. *)
Theorem lookups_register_nothing n s :
  post (λ s', dom (libMap s') ⊆ dom (libMap s)) (acquireLibrary n s) ∧
  post (λ s', dom (libMap s') ⊆ dom (libMap s)) (releaseLibrary n s) ∧
  post (λ s', dom (libMap s') ⊆ dom (libMap s)) (unloadLibrary n s).
Proof.
  repeat split; apply post_absent_dom; intros k Hk.
  - apply (post_then_ret _ (acquireLibrary n)).
    by apply (lookup_call_keeps_absent (DoAcquireLibrary n)).
  - apply (post_then_ret _ (releaseLibrary n)).
    by apply (lookup_call_keeps_absent (DoReleaseLibrary n)).
  - apply (post_then_ret _ (unloadLibrary n)).
    by apply (lookup_call_keeps_absent (DoUnloadLibrary n)).
Qed.

(** X2.  In a registry a program can hold, the two
    [throw std::runtime_error("... use count is below zero")] guards never
    fire: [releaseLibrary] returns, and a direct [unloadLibrary] returns
    without touching anything, with [LIBMGR_ERR_LIB_IN_USE] for a registered
    name and [LIBMGR_ERR_NO_LIBRARY] for any other. *)
Theorem guards_never_fire s n :
  reachable s →
  (∃ e s', releaseLibrary n s = Ok e s') ∧
  unloadLibrary n s
  = Ok (match libMap s !! n with
        | Some _ => LIBMGR_ERR_LIB_IN_USE
        | None => LIBMGR_ERR_NO_LIBRARY
        end) s.
Proof.
  intros Hs. apply reachable_inv in Hs.
  destruct (libMap s !! n) as [r|] eqn:E.
  - destruct (Hs n r E) as [[Hlo Hhi] _]. split.
    + destruct (decide (useCount r = 1)) as [H1|H1].
      * eexists _, _. by apply (releaseLibrary_last s n r).
      * eexists _, _. apply (releaseLibrary_more s n r); [done|lia|done].
    + apply (unloadLibrary_positive s n r); [done|lia].
  - split; [|by apply unloadLibrary_absent].
    eexists _, _. by apply releaseLibrary_absent.
Qed.

Lemma guards_never_fire_witness :
  reachable registry_A ∧
  (∃ e s', releaseLibrary "A" registry_A = Ok e s') ∧
  unloadLibrary "A" registry_A = Ok LIBMGR_ERR_LIB_IN_USE registry_A.
Proof.
  split; [apply reachable_registry_A|].
  apply (guards_never_fire registry_A "A"). apply reachable_registry_A.
Defined.

(** X3.  The codes each member can answer.  [addLibrary] never answers
    "not able to load" or "in use"; [releaseLibrary] never passes on the
    answer of the [unloadLibrary] it calls; [loadLibrary] knows success and
    "not able to load" only.  No member answers [LIBMGR_NUM_ERRORS], so
    [errMessage[e]] is always within the array. *)
Theorem returned_error_codes :
  (∀ l d p s e s', addLibrary l d p s = Ok e s' →
     e ∈ [LIBMGR_NO_ERROR; LIBMGR_ERR_NO_LIBRARY; LIBMGR_ERR_LIBNAME_EXISTS]) ∧
  (∀ n s e s', releaseLibrary n s = Ok e s' →
     e ∈ [LIBMGR_NO_ERROR; LIBMGR_ERR_NO_LIBRARY]) ∧
  (∀ n s e s', unloadLibrary n s = Ok e s' →
     e ∈ [LIBMGR_NO_ERROR; LIBMGR_ERR_NO_LIBRARY; LIBMGR_ERR_LIB_IN_USE]) ∧
  (∀ P W libPath config s e s', loadLibrary P W libPath config s = Ok e s' →
     e ∈ [LIBMGR_NO_ERROR; LIBMGR_ERR_NOT_ABLE_TO_LOAD]).
Proof.
  split; [|split; [|split]].
  - intros [i|] d p s e s'; unfold addLibrary; run_M.
    + destruct (libMap s !! getLibName i).
      * intros [= <- _]. set_solver.
      * destruct (notify_loop _ _ _); intros [= <- _]. set_solver.
    + intros [= <- _]. set_solver.
  - intros n s e s'. unfold releaseLibrary. run_M.
    destruct (libMap s !! n) as [r|]; [|intros [= <- _]; set_solver].
    destruct (decide (useCount r = INT_MIN)); [done|]. simpl.
    destruct (decide (useCount r - 1 < 0)); [done|].
    destruct (decide (useCount r - 1 = 0)); simpl.
    + destruct (unloadLibrary _ _); intros [= <- _]. set_solver.
    + intros [= <- _]. set_solver.
  - intros n s e s'. unfold unloadLibrary. run_M.
    destruct (libMap s !! n) as [r|]; [|intros [= <- _]; set_solver].
    destruct (decide (useCount r < 0)); [done|].
    destruct (decide (useCount r = 0)); simpl.
    + destruct (destroy r); simpl; intros [= <- _]; set_solver.
    + intros [= <- _]. set_solver.
  - intros P W libPath config s e s' H.
    destruct (loadLibrary_answers _ _ _ _ _ _ _ H) as [-> | ->]; set_solver.
Qed.

Lemma returned_error_codes_witness :
  releaseLibrary "A" registry_A
    = Ok LIBMGR_NO_ERROR
         (mkMgr ∅ [CreateModuleInfo A_lib; Stderr (LogUnloadDelete "A");
                   Destroy 7%N (Some A_lib)]) ∧
  LIBMGR_NO_ERROR ∈ [LIBMGR_NO_ERROR; LIBMGR_ERR_NO_LIBRARY].
Proof.
  assert (releaseLibrary "A" registry_A
    = Ok LIBMGR_NO_ERROR
         (mkMgr ∅ [CreateModuleInfo A_lib; Stderr (LogUnloadDelete "A");
                   Destroy 7%N (Some A_lib)])) as H
    by (vm_compute; reflexivity).
  split; [exact H|].
  destruct returned_error_codes as (_ & Hrel & _).
  exact (Hrel "A" registry_A _ _ H).
Defined.

(** X4.  In a registry a program can hold, [acquireLibrary] answers
    non-null exactly for the registered names, and the object it hands out
    is the one registered under that name: it reports the name asked for,
    and its record now counts one more user. *)
Theorem acquire_returns_registered_object s n :
  reachable s → refCount n s ≠ Some INT_MAX →
  ∃ h s',
    acquireLibrary n s = Ok h s' ∧
    (is_Some h ↔ is_Some (libMap s !! n)) ∧
    ∀ i, h = Some i →
      getLibName i = n ∧
      (∃ r, libMap s !! n = Some r ∧ libInterface r = Some i) ∧
      refCount n s' = (λ c, c + 1) <$> refCount n s.
Proof.
  intros Hs Hmax. apply reachable_inv in Hs. unfold refCount in *.
  destruct (libMap s !! n) as [r|] eqn:E.
  - destruct (Hs n r E) as [_ (i & Hi & Hname)].
    eexists (libInterface r), _. split.
    + apply (acquireLibrary_present s n r); [done|]. simpl in Hmax. congruence.
    + rewrite Hi. split; [by split; eexists|].
      intros j [= <-]. split; [done|]. split; [by exists r|].
      simpl. by rewrite lookup_insert_eq.
  - eexists None, _. split; [by apply acquireLibrary_absent|].
    split; [|done]. split; intros [? ?]; done.
Qed.

Lemma acquire_returns_registered_object_witness :
  reachable registry_A ∧ refCount "A" registry_A ≠ Some INT_MAX ∧
  ∃ h s',
    acquireLibrary "A" registry_A = Ok h s' ∧
    (is_Some h ↔ is_Some (libMap registry_A !! "A")) ∧
    ∀ i, h = Some i →
      getLibName i = "A" ∧
      (∃ r, libMap registry_A !! "A" = Some r ∧ libInterface r = Some i) ∧
      refCount "A" s' = (λ c, c + 1) <$> refCount "A" registry_A.
Proof.
  assert (refCount "A" registry_A ≠ Some INT_MAX) as H by (vm_compute; congruence).
  split; [apply reachable_registry_A|]. split; [exact H|].
  apply (acquire_returns_registered_object registry_A "A").
  - apply reachable_registry_A.
  - exact H.
Defined.

(** ** Counting users *)

Lemma insert_same_record s n r c :
  libMap s !! n = Some r → c = useCount r →
  mkMgr (<[n := set_useCount c r]> (libMap s)) (events s) = s.
Proof.
  intros H ->. by rewrite set_useCount_same, insert_id, mgr_eta.
Qed.

Lemma bind_run {A B} (m : M A) (k : A → M B) s a s1 :
  m s = Ok a s1 → bind m k s = k a s1.
Proof. unfold bind. by intros ->. Qed.

Lemma mgr_count_eq m evs n r c c' :
  c = c' →
  mkMgr (<[n := set_useCount c r]> m) evs
  = mkMgr (<[n := set_useCount c' r]> m) evs.
Proof. by intros ->. Qed.

Lemma release_after_acquire s n r :
  libMap s !! n = Some r → 1 ≤ useCount r < INT_MAX →
  releaseLibrary n
    (mkMgr (<[n := set_useCount (useCount r + 1) r]> (libMap s)) (events s))
  = Ok LIBMGR_NO_ERROR s.
Proof.
  intros H Hc.
  rewrite (releaseLibrary_more _ n (set_useCount (useCount r + 1) r));
    [|by apply lookup_insert_eq|simpl; lia|simpl; lia].
  simpl. rewrite insert_insert_eq.
  change (set_useCount ?c (set_useCount _ r)) with (set_useCount c r).
  f_equal. apply insert_same_record; [done|lia].
Qed.

Lemma acquire_times s n r k :
  libMap s !! n = Some r → useCount r + Z.of_nat k ≤ INT_MAX →
  repeatM k (acquireLibrary n ;;; ret tt) s
  = Ok tt (mkMgr (<[n := set_useCount (useCount r + Z.of_nat k) r]> (libMap s))
                 (events s)).
Proof.
  revert s r. induction k as [|k IH]; intros s r H Hmax.
  - simpl. unfold ret. f_equal. symmetry. apply insert_same_record; [done|lia].
  - change (repeatM (S k) ?m) with (m ;;; repeatM k m).
    unfold bind at 1 2. rewrite (acquireLibrary_present s n r) by (done || lia).
    unfold ret at 1.
    rewrite (IH _ (set_useCount (useCount r + 1) r));
      [|by apply lookup_insert_eq|simpl; lia].
    simpl. rewrite insert_insert_eq.
    change (set_useCount ?c (set_useCount _ r)) with (set_useCount c r).
    f_equal. apply mgr_count_eq. lia.
Qed.

Lemma release_times s n r k :
  libMap s !! n = Some r → Z.of_nat k < useCount r ≤ INT_MAX →
  repeatM k (releaseLibrary n ;;; ret tt) s
  = Ok tt (mkMgr (<[n := set_useCount (useCount r - Z.of_nat k) r]> (libMap s))
                 (events s)).
Proof.
  revert s r. induction k as [|k IH]; intros s r H Hc.
  - simpl. unfold ret. f_equal. symmetry. apply insert_same_record; [done|lia].
  - change (repeatM (S k) ?m) with (m ;;; repeatM k m).
    unfold bind at 1 2. rewrite (releaseLibrary_more s n r) by (done || lia).
    unfold ret at 1.
    rewrite (IH _ (set_useCount (useCount r - 1) r));
      [|by apply lookup_insert_eq|simpl; lia].
    simpl. rewrite insert_insert_eq.
    change (set_useCount ?c (set_useCount _ r)) with (set_useCount c r).
    f_equal. apply mgr_count_eq. lia.
Qed.

(** The last of [k + 1] users lets go. *)
Lemma release_all s n r k :
  libMap s !! n = Some r → useCount r = Z.of_nat (S k) →
  useCount r ≤ INT_MAX →
  repeatM (S k) (releaseLibrary n ;;; ret tt) s
  = Ok tt (mkMgr (delete n (libMap s)) (events s ++ unload_events n r)).
Proof.
  revert s r. induction k as [|k IH]; intros s r H Hc Hmax.
  - simpl. unfold bind. rewrite (releaseLibrary_last s n r) by done. done.
  - change (repeatM (S (S k)) ?m) with (m ;;; repeatM (S k) m).
    unfold bind at 1 2. rewrite (releaseLibrary_more s n r) by (done || lia).
    unfold ret at 1.
    rewrite (IH _ (set_useCount (useCount r - 1) r));
      [|by apply lookup_insert_eq|simpl; lia|simpl; lia].
    simpl. by rewrite delete_insert_eq.
Qed.

(** X5.  Matched use.  On a registered library, any number of
    [acquireLibrary] calls followed by as many [releaseLibrary] calls leaves
    the manager exactly as it was: the record is kept, nothing is destroyed
    and nothing is printed, as long as the counter stays within [int]. *)
Theorem balanced_acquire_release s n r k :
  reachable s → libMap s !! n = Some r →
  useCount r + Z.of_nat k ≤ INT_MAX →
  (repeatM k (acquireLibrary n ;;; ret tt) ;;;
   repeatM k (releaseLibrary n ;;; ret tt)) s = Ok tt s.
Proof.
  intros Hs H Hmax. apply reachable_inv in Hs.
  destruct (Hs n r H) as [[Hlo _] _].
  rewrite (bind_run _ _ _ _ _ (acquire_times s n r k H Hmax)).
  rewrite (release_times _ n (set_useCount (useCount r + Z.of_nat k) r));
    [|by apply lookup_insert_eq|simpl; lia].
  simpl. rewrite insert_insert_eq.
  change (set_useCount ?c (set_useCount _ r)) with (set_useCount c r).
  f_equal. apply insert_same_record; [done|lia].
Qed.

Lemma balanced_acquire_release_witness :
  reachable registry_A ∧
  libMap registry_A !! "A" = Some (new_record A_lib (Some 7%N) "") ∧
  useCount (new_record A_lib (Some 7%N) "") + Z.of_nat 3 ≤ INT_MAX ∧
  (repeatM 3 (acquireLibrary "A" ;;; ret tt) ;;;
   repeatM 3 (releaseLibrary "A" ;;; ret tt)) registry_A = Ok tt registry_A.
Proof.
  assert (useCount (new_record A_lib (Some 7%N) "") + Z.of_nat 3 ≤ INT_MAX)
    as H by (vm_compute; discriminate).
  split; [apply reachable_registry_A|]. split; [reflexivity|].
  split; [exact H|].
  apply (balanced_acquire_release registry_A "A"
           (new_record A_lib (Some 7%N) "") 3).
  - apply reachable_registry_A.
  - reflexivity.
  - exact H.
Defined.

(** As many releases as acquisitions, on a record in use. *)
Lemma acquire_release_times s n r k :
  libMap s !! n = Some r → 1 ≤ useCount r →
  useCount r + Z.of_nat k ≤ INT_MAX →
  (repeatM k (acquireLibrary n ;;; ret tt) ;;;
   repeatM k (releaseLibrary n ;;; ret tt)) s = Ok tt s.
Proof.
  intros H Hlo Hmax.
  rewrite (bind_run _ _ _ _ _ (acquire_times s n r k H Hmax)).
  rewrite (release_times _ n (set_useCount (useCount r + Z.of_nat k) r));
    [|by apply lookup_insert_eq|simpl; lia].
  simpl. rewrite insert_insert_eq.
  change (set_useCount ?c (set_useCount _ r)) with (set_useCount c r).
  f_equal. apply insert_same_record; [done|lia].
Qed.

(** X6.  A library's life.  Register a module under a free name, take [k]
    more references and give all [k + 1] back: the registry holds the same
    records as before the registration, and the module's destroy function,
    when it has one, was called exactly once, at the last release: the
    first [k] releases leave the manager as the registration made it, and
    the one after them unloads. *)
Theorem register_use_dispose i d p k s :
  reachable s → libMap s !! getLibName i = None →
  1 + Z.of_nat k ≤ INT_MAX →
  ∃ s1 s',
    addLibrary (Some i) d p s = Ok LIBMGR_NO_ERROR s1 ∧
    (repeatM k (acquireLibrary (getLibName i) ;;; ret tt) ;;;
     repeatM k (releaseLibrary (getLibName i) ;;; ret tt)) s1 = Ok tt s1 ∧
    releaseLibrary (getLibName i) s1 = Ok LIBMGR_NO_ERROR s' ∧
    (repeatM k (acquireLibrary (getLibName i) ;;; ret tt) ;;;
     repeatM (S k) (releaseLibrary (getLibName i) ;;; ret tt)) s1 = Ok tt s' ∧
    libMap s' = libMap s ∧
    events s' = events s1 ++ Stderr (LogUnloadDelete (getLibName i)) ::
                  match d with
                  | Some f => [Destroy f (Some i)]
                  | None => []
                  end.
Proof.
  intros Hs Hfresh Hmax. apply reachable_inv in Hs.
  eexists _, _. split; [by apply addLibrary_fresh|].
  split.
  { apply (acquire_release_times _ (getLibName i) (new_record i d p) k);
      [by apply lookup_insert_eq|done|simpl; lia]. }
  split.
  { apply (releaseLibrary_last _ (getLibName i) (new_record i d p));
      [by apply lookup_insert_eq|done]. }
  erewrite bind_run;
    [|apply (acquire_times _ (getLibName i) (new_record i d p) k);
      [by apply lookup_insert_eq|simpl; lia]].
  rewrite (release_all _ (getLibName i)
             (set_useCount (1 + Z.of_nat k) (new_record i d p)) k);
    [|by apply lookup_insert_eq|simpl; lia|simpl; lia].
  simpl. rewrite !delete_insert_eq, delete_id by done.
  split; [done|]. split; [done|]. unfold unload_events. simpl. by destruct d.
Qed.

Lemma register_use_dispose_witness :
  reachable LibManager_new ∧
  libMap LibManager_new !! getLibName A_lib = None ∧
  1 + Z.of_nat 2 ≤ INT_MAX ∧
  ∃ s1 s',
    addLibrary (Some A_lib) (Some 7%N) "" LibManager_new
      = Ok LIBMGR_NO_ERROR s1 ∧
    (repeatM 2 (acquireLibrary (getLibName A_lib) ;;; ret tt) ;;;
     repeatM 2 (releaseLibrary (getLibName A_lib) ;;; ret tt)) s1 = Ok tt s1 ∧
    releaseLibrary (getLibName A_lib) s1 = Ok LIBMGR_NO_ERROR s' ∧
    (repeatM 2 (acquireLibrary (getLibName A_lib) ;;; ret tt) ;;;
     repeatM 3 (releaseLibrary (getLibName A_lib) ;;; ret tt)) s1 = Ok tt s' ∧
    libMap s' = libMap LibManager_new ∧
    events s' = events s1 ++ Stderr (LogUnloadDelete (getLibName A_lib)) ::
                  [Destroy 7%N (Some A_lib)].
Proof.
  assert (1 + Z.of_nat 2 ≤ INT_MAX) as H by (vm_compute; discriminate).
  split; [apply reachable_new|]. split; [reflexivity|]. split; [exact H|].
  apply (register_use_dispose A_lib (Some 7%N) "" 2 LibManager_new).
  - apply reachable_new.
  - reflexivity.
  - exact H.
Defined.

(** X7.  [acquireLibraryAs<T>] keeps a reference only when it hands the
    library out.  In a registry a program can hold it answers either an
    object of the wanted type, registered under the name asked for and now
    counting one more user, or null; and when it answers null, for an
    unknown name or for a library of another type, every record and every
    count is as before. *)
Theorem acquireLibraryAs_keeps_no_stray_reference castable s n :
  reachable s → refCount n s ≠ Some INT_MAX →
  ∃ h s',
    acquireLibraryAs castable n s = Ok h s' ∧
    (∀ i, h = Some i →
       castable i = true ∧ getLibName i = n ∧
       (∃ r, libMap s !! n = Some r ∧ libInterface r = Some i) ∧
       refCount n s' = (λ c, c + 1) <$> refCount n s) ∧
    (h = None → libMap s' = libMap s).
Proof.
  intros Hs Hmax. apply reachable_inv in Hs.
  unfold acquireLibraryAs, bind, refCount in *.
  destruct (libMap s !! n) as [r|] eqn:E.
  - destruct (Hs n r E) as [[Hlo Hhi] (i & Hi & Hname)].
    assert (useCount r ≠ INT_MAX) as Hne by (simpl in Hmax; congruence).
    rewrite (acquireLibrary_present s n r), Hi by done.
    destruct (castable i) eqn:Hcast.
    + eexists _, _. split; [reflexivity|]. split; [|done].
      intros j [= <-]. split; [done|]. split; [done|].
      split; [by exists r|].
      simpl. by rewrite lookup_insert_eq.
    + rewrite release_after_acquire by (done || lia).
      eexists _, _. split; [reflexivity|]. split; [done|]. done.
  - rewrite acquireLibrary_absent by done.
    eexists _, _. split; [reflexivity|]. split; [done|]. done.
Qed.

Lemma acquireLibraryAs_keeps_no_stray_reference_witness :
  reachable registry_A ∧ refCount "A" registry_A ≠ Some INT_MAX ∧
  ∃ h s',
    acquireLibraryAs (λ _, false) "A" registry_A = Ok h s' ∧
    (∀ i, h = Some i →
       (λ _ : LibInterface, false) i = true ∧ getLibName i = "A" ∧
       (∃ r, libMap registry_A !! "A" = Some r ∧ libInterface r = Some i) ∧
       refCount "A" s' = (λ c, c + 1) <$> refCount "A" registry_A) ∧
    (h = None → libMap s' = libMap registry_A).
Proof.
  assert (refCount "A" registry_A ≠ Some INT_MAX) as H by (vm_compute; congruence).
  split; [apply reachable_registry_A|]. split; [exact H|].
  apply (acquireLibraryAs_keeps_no_stray_reference (λ _, false) registry_A "A").
  - apply reachable_registry_A.
  - exact H.
Defined.

(** ** The order of iteration *)

#[local] Instance key_le_trans : Transitive key_le.
Proof.
  intros x y z Hxy Hyz. unfold key_le in *.
  apply Is_true_true. apply Is_true_true in Hxy, Hyz.
  by apply (transitivity (R := String.le) Hxy).
Qed.

#[local] Instance key_le_total : Total key_le.
Proof. intros x y. unfold key_le. apply String.leb_total. Qed.

Lemma entries_sorted m : StronglySorted key_le (entries m).
Proof. apply StronglySorted_merge_sort; apply _. Qed.

Lemma entries_NoDup_keys m : NoDup (entries m).*1.
Proof. rewrite entries_Permutation. apply NoDup_fst_map_to_list. Qed.

Lemma entries_NoDup m : NoDup (entries m).
Proof. rewrite entries_Permutation. apply NoDup_map_to_list. Qed.

(** A std::map has one iteration order. *)
Lemma entries_unique l m :
  StronglySorted key_le l → l ≡ₚ map_to_list m → l = entries m.
Proof.
  intros Hl Hperm.
  apply (StronglySorted_unique_strong key_le);
    [|done|apply entries_sorted|by rewrite entries_Permutation].
  intros [k1 r1] [k2 r2] H1 H2 H12 H21.
  assert (k1 = k2) as -> by (by apply String.leb_antisym).
  rewrite Hperm in H1. apply elem_of_map_to_list in H1.
  apply elem_of_entries in H2. congruence.
Qed.

Lemma StronglySorted_filter {A} (R : relation A) (P : A → Prop)
    `{∀ x, Decision (P x)} l :
  StronglySorted R l → StronglySorted R (filter P l).
Proof.
  induction 1 as [|x l Hl IH Hx]; [constructor|].
  destruct (decide (P x)).
  - rewrite filter_cons_True by done. constructor; [done|].
    apply Forall_forall. intros y [_ Hy]%list_elem_of_filter.
    rewrite Forall_forall in Hx. by apply Hx.
  - by rewrite filter_cons_False.
Qed.

Lemma entries_delete m k :
  entries (delete k m) = filter (λ it, it.1 ≠ k) (entries m).
Proof.
  symmetry. apply entries_unique.
  - apply StronglySorted_filter, entries_sorted.
  - apply NoDup_Permutation.
    + apply NoDup_filter, entries_NoDup.
    + apply NoDup_map_to_list.
    + intros [k' r]. rewrite list_elem_of_filter, elem_of_entries,
        elem_of_map_to_list, lookup_delete_Some. simpl.
      split; intros [? ?]; split; done.
Qed.

Lemma entries_insert_fresh m k r :
  m !! k = None →
  filter (λ it, it.1 ≠ k) (entries (<[k := r]> m)) = entries m.
Proof.
  intros H. rewrite <- entries_delete.
  by rewrite delete_insert_eq, delete_id.
Qed.

Lemma elem_of_entries_keys m k : k ∈ (entries m).*1 ↔ is_Some (m !! k).
Proof.
  rewrite list_elem_of_fmap. split.
  - intros ([k' r] & -> & Hin). apply elem_of_entries in Hin. by exists r.
  - intros [r Hr]. exists (k, r). split; [done|]. by apply elem_of_entries.
Qed.

(** ** Listing *)

(** X8.  [getAllLibraryNames] only reads.  The names it appends are
    exactly the registered ones, each once, in strictly ascending byte
    order, the order of the [std::map]. *)
Theorem getAllLibraryNames_sorted libNameList s :
  ∃ names,
    getAllLibraryNames libNameList s = Ok (libNameList ++ names) s ∧
    (∀ n, n ∈ names ↔ is_Some (libMap s !! n)) ∧
    StronglySorted (λ a b, String.ltb a b = true) names.
Proof.
  exists (entries (libMap s)).*1. split; [done|].
  split; [apply elem_of_entries_keys|].
  pose proof (entries_sorted (libMap s)) as Hsorted.
  pose proof (entries_NoDup_keys (libMap s)) as Hnodup.
  induction Hsorted as [|[k r] l Hl IH Hk]; [constructor|].
  simpl in *. apply NoDup_cons in Hnodup as [Hnotin Hnodup].
  constructor; [by apply IH|].
  apply Forall_fmap, Forall_forall. intros [k' r'] Hin. simpl.
  rewrite Forall_forall in Hk. specialize (Hk _ Hin).
  unfold key_le in Hk. simpl in Hk.
  unfold String.ltb. unfold String.leb in Hk.
  destruct (String.compare k k') eqn:E; [|done|done].
  apply String.compare_eq_iff in E as ->.
  exfalso. apply Hnotin. apply list_elem_of_fmap. by exists (k', r').
Qed.

Lemma getAllLibraries_loop_run its l m evs :
  (∀ it, it ∈ its → useCount it.2 ≠ INT_MAX) →
  ∃ m',
    getAllLibraries_loop its l (mkMgr m evs)
    = Ok (l ++ ((λ it, libInterface it.2) <$> its)) (mkMgr m' evs) ∧
    (NoDup its.*1 →
     ∀ k, m' !! k = match list_find (λ it, it.1 = k) its with
                    | Some (_, it) => Some (incr it.2)
                    | None => m !! k
                    end).
Proof.
  revert l m. induction its as [|[k0 r0] its IH]; intros l m Hmax.
  - exists m. split; [by rewrite app_nil_r|done].
  - simpl. destruct (decide (useCount r0 = INT_MAX)) as [Hm|_].
    { by destruct (Hmax (k0, r0)); [left|]. }
    run_M.
    destruct (IH (l ++ [libInterface r0])
                 (<[k0 := set_useCount (useCount r0 + 1) r0]> m))
      as (m' & -> & Hm'); [intros; apply Hmax; by right|].
    exists m'. split; [by rewrite <- app_assoc|].
    intros [Hnotin Hnodup]%NoDup_cons k. rewrite (Hm' Hnodup k).
    destruct (decide (k0 = k)) as [->|Hne].
    + destruct (list_find _ its) as [[j [k' r']]|] eqn:E.
      * apply list_find_Some in E as (Hj & Hk & _). simpl in Hk. subst k'.
        exfalso. apply Hnotin. apply list_elem_of_fmap. exists (k, r').
        split; [done|]. by eapply list_elem_of_lookup_2.
      * by rewrite lookup_insert_eq.
    + destruct (list_find _ its) as [[j [k' r']]|]; [done|].
      by rewrite lookup_insert_ne.
Qed.

Lemma getAllLibraries_run libList s :
  (∀ n, refCount n s ≠ Some INT_MAX) →
  getAllLibraries libList s
  = Ok (libList ++ ((λ it, libInterface it.2) <$> entries (libMap s)))
       (mkMgr (incr <$> libMap s) (events s)).
Proof.
  intros Hmax. unfold getAllLibraries, bind, getMap.
  destruct (getAllLibraries_loop_run (entries (libMap s)) libList
              (libMap s) (events s)) as (m' & Hrun & Hm').
  { intros [k r] Hin%elem_of_entries Heq. apply (Hmax k).
    unfold refCount. rewrite Hin. simpl in *. by rewrite Heq. }
  rewrite mgr_eta in Hrun. rewrite Hrun. do 2 f_equal.
  apply map_eq. intros k.
  rewrite (Hm' (entries_NoDup_keys _) k), lookup_fmap.
  destruct (list_find _ _) as [[j [k' r']]|] eqn:E.
  - apply list_find_Some in E as (Hj & Hk & _). simpl in Hk. subst k'.
    apply list_elem_of_lookup_2, elem_of_entries in Hj. by rewrite Hj.
  - destruct (libMap s !! k) as [r|] eqn:Ek; [|done].
    exfalso. apply list_find_None in E. rewrite Forall_forall in E.
    apply (E (k, r)); [by apply elem_of_entries|done].
Qed.

(** X9.  [getAllLibraries] makes its caller a user of every library.  With
    every counter below [INT_MAX], it appends the handle of each registered
    library, in ascending order of names, and adds one to every use count;
    no record comes or goes and nothing else happens. *)
Theorem getAllLibraries_counts_everyone libList s :
  (∀ n, refCount n s ≠ Some INT_MAX) →
  ∃ handles,
    getAllLibraries libList s
      = Ok (libList ++ handles) (mkMgr (incr <$> libMap s) (events s)) ∧
    handles = (λ it, libInterface it.2) <$> entries (libMap s) ∧
    length handles = size (libMap s) ∧
    ∀ n, refCount n (mkMgr (incr <$> libMap s) (events s))
         = (λ c, c + 1) <$> refCount n s.
Proof.
  intros Hmax. eexists. split; [by apply getAllLibraries_run|].
  split; [done|]. split.
  - by rewrite length_fmap, entries_Permutation, length_map_to_list.
  - intros n. unfold refCount. simpl. rewrite lookup_fmap.
    by destruct (libMap s !! n).
Qed.

Lemma registry_A_below_max n : refCount n registry_A ≠ Some INT_MAX.
Proof.
  unfold refCount, registry_A. simpl.
  destruct (decide (n = "A")) as [->|Hne].
  - rewrite lookup_singleton_eq. simpl. unfold INT_MAX. congruence.
  - by rewrite lookup_singleton_ne.
Qed.

Lemma getAllLibraries_counts_everyone_witness :
  (∀ n, refCount n registry_A ≠ Some INT_MAX) ∧
  ∃ handles,
    getAllLibraries [] registry_A
      = Ok ([] ++ handles)
           (mkMgr (incr <$> libMap registry_A) (events registry_A)) ∧
    handles = (λ it, libInterface it.2) <$> entries (libMap registry_A) ∧
    length handles = size (libMap registry_A) ∧
    ∀ n, refCount n (mkMgr (incr <$> libMap registry_A) (events registry_A))
         = (λ c, c + 1) <$> refCount n registry_A.
Proof.
  pose proof registry_A_below_max as H.
  split; [exact H|].
  apply (getAllLibraries_counts_everyone [] registry_A). exact H.
Defined.

Lemma release_each_run names m evs :
  NoDup names →
  (∀ n, n ∈ names → ∃ r, m !! n = Some r ∧ 2 ≤ useCount r ≤ INT_MAX) →
  ∃ m',
    release_each names (mkMgr m evs) = Ok tt (mkMgr m' evs) ∧
    ∀ k, m' !! k = if decide (k ∈ names)
                   then (λ r, set_useCount (useCount r - 1) r) <$> m !! k
                   else m !! k.
Proof.
  revert m. induction names as [|n names IH]; intros m Hnodup Hcount.
  - exists m. split; [done|]. intros k.
    destruct (decide (k ∈ [])) as [Hin|_]; [by apply elem_of_nil in Hin|done].
  - apply NoDup_cons in Hnodup as [Hnotin Hnodup].
    destruct (Hcount n) as (r & Hr & Hlo & Hhi); [left|].
    simpl. unfold bind.
    rewrite (releaseLibrary_more (mkMgr m evs) n r) by (done || lia). simpl.
    destruct (IH (<[n := set_useCount (useCount r - 1) r]> m) Hnodup)
      as (m' & -> & Hm').
    { intros n' Hin'. destruct (Hcount n') as (r' & Hr' & Hc'); [by right|].
      exists r'. rewrite lookup_insert_ne; [done|]. by intros ->. }
    exists m'. split; [done|]. intros k. rewrite Hm'.
    destruct (decide (k = n)) as [->|Hne].
    + rewrite decide_False by done. rewrite decide_True by left.
      by rewrite lookup_insert_eq, Hr.
    + rewrite lookup_insert_ne by done.
      destruct (decide (k ∈ names)) as [Hin|Hnin].
      * by rewrite decide_True by (by right).
      * rewrite decide_False; [done|]. by intros [->|?]%elem_of_cons.
Qed.

(** X10.  What [getAllLibraries] takes, [releaseLibrary] gives back.
    After [getAllLibraries], releasing once every name that
    [getAllLibraryNames] lists returns the manager to exactly the state it
    had before: same records, same counts, nothing destroyed. *)
Theorem getAllLibraries_release_each s :
  reachable s → (∀ n, refCount n s ≠ Some INT_MAX) →
  ∃ handles s1 names,
    getAllLibraries [] s = Ok handles s1 ∧
    getAllLibraryNames [] s1 = Ok names s1 ∧
    length handles = length names ∧
    release_each names s1 = Ok tt s.
Proof.
  intros Hs Hmax.
  pose proof (getAllLibraries_run [] s Hmax) as Hall.
  apply reachable_inv in Hs.
  eexists _, _, _. split; [exact Hall|]. split; [reflexivity|].
  split; [simpl; rewrite !length_fmap, !entries_Permutation,
          !length_map_to_list; by rewrite map_size_fmap|].
  destruct (release_each_run (entries (incr <$> libMap s)).*1
              (incr <$> libMap s) (events s)) as (m' & Hrun & Hm').
  { apply entries_NoDup_keys. }
  { intros n [r' Hr']%elem_of_entries_keys.
    rewrite lookup_fmap in Hr'.
    destruct (libMap s !! n) as [r|] eqn:E; [|done].
    injection Hr' as <-. exists (incr r).
    split; [by rewrite lookup_fmap, E|].
    destruct (Hs n r E) as [[Hlo Hhi] _].
    assert (useCount r ≠ INT_MAX).
    { intros Heq. apply (Hmax n). unfold refCount. by rewrite E, <- Heq. }
    simpl. lia. }
  simpl. rewrite Hrun. f_equal.
  transitivity (mkMgr (libMap s) (events s)); [|apply mgr_eta]. f_equal.
  apply map_eq. intros k. rewrite Hm', lookup_fmap.
  destruct (decide _) as [Hin|Hnin].
  - destruct (libMap s !! k) as [r|]; [|done]. simpl. f_equal.
    destruct r. unfold incr, set_useCount. simpl. f_equal. lia.
  - destruct (libMap s !! k) as [r|] eqn:E; [|done].
    exfalso. apply Hnin, elem_of_entries_keys.
    rewrite lookup_fmap, E. by eexists.
Qed.

Lemma getAllLibraries_release_each_witness :
  reachable registry_A ∧ (∀ n, refCount n registry_A ≠ Some INT_MAX) ∧
  ∃ handles s1 names,
    getAllLibraries [] registry_A = Ok handles s1 ∧
    getAllLibraryNames [] s1 = Ok names s1 ∧
    length handles = length names ∧
    release_each names s1 = Ok tt registry_A.
Proof.
  pose proof registry_A_below_max as H.
  split; [apply reachable_registry_A|]. split; [exact H|].
  apply (getAllLibraries_release_each registry_A).
  - apply reachable_registry_A.
  - exact H.
Defined.

(** ** Teardown *)

Lemma clearLibraries_loop_filter fuel s :
  (size (libMap s) < fuel)%nat →
  ∃ s',
    clearLibraries_loop fuel s = Ok tt s' ∧
    libMap s' = filter (λ kr, useCount kr.2 ≠ 0) (libMap s).
Proof.
  revert s. induction fuel as [|fuel IH]; intros s Hfuel; [lia|].
  unfold clearLibraries_loop. fold clearLibraries_loop. run_M.
  destruct (list_find _ _) as [[j [k r]]|] eqn:E.
  - apply list_find_Some in E as (Hj & Hzero & _). simpl in Hzero.
    apply list_elem_of_lookup_2, elem_of_entries in Hj.
    assert (size (delete k (libMap s)) < fuel)%nat as Hsize.
    { destruct (decide (size (libMap s) = 0%nat)) as [Hz|Hz].
      - apply map_size_empty_inv in Hz. by rewrite Hz, lookup_empty in Hj.
      - rewrite map_size_delete, Hj. simpl. lia. }
    assert (filter (λ kr, useCount kr.2 ≠ 0) (delete k (libMap s))
            = filter (λ kr : string * libStruct, useCount kr.2 ≠ 0) (libMap s))
      as Hfilter.
    { apply map_filter_delete_not. intros y Hy. simpl.
      assert (y = r) as -> by congruence. by intros ?. }
    destruct (destroy r); simpl;
      match goal with
      | |- ∃ _, clearLibraries_loop fuel ?s1 = _ ∧ _ =>
          destruct (IH s1 Hsize) as (s' & Hrun & Hmap)
      end;
      exists s'; (split; [done|]); simpl in Hmap; by rewrite Hmap.
  - exists s. split; [done|]. symmetry. apply map_filter_id.
    intros k r Hk. apply elem_of_entries in Hk.
    rewrite list_find_None, Forall_forall in E. by apply (E (k, r)).
Qed.

Lemma clearLibraries_nothing_unused s :
  registry_inv s → clearLibraries s = Ok tt s.
Proof.
  intros Hs. unfold clearLibraries, bind, getMap.
  unfold clearLibraries_loop. fold clearLibraries_loop. run_M.
  destruct (list_find _ _) as [[j [k r]]|] eqn:E; [|done].
  apply list_find_Some in E as (Hj & Hzero & _). simpl in Hzero.
  apply list_elem_of_lookup_2, elem_of_entries in Hj.
  destruct (Hs k r Hj) as [[? ?] _]. lia.
Qed.

(** X11.  [clearLibraries] always returns, and removes exactly the records
    whose use count is zero; records still in use stay.  A registry a
    program can hold has no record with a zero count, so there
    [clearLibraries] removes and destroys nothing at all. *)
Theorem clearLibraries_removes_unused s :
  (∃ s', clearLibraries s = Ok tt s' ∧
         libMap s' = filter (λ kr, useCount kr.2 ≠ 0) (libMap s)) ∧
  (reachable s → clearLibraries s = Ok tt s).
Proof.
  split.
  - unfold clearLibraries, bind, getMap. apply clearLibraries_loop_filter. lia.
  - intros Hs. by apply clearLibraries_nothing_unused, reachable_inv.
Qed.

Lemma clearLibraries_removes_unused_witness :
  reachable registry_A ∧ clearLibraries registry_A = Ok tt registry_A.
Proof.
  split; [apply reachable_registry_A|].
  apply (clearLibraries_removes_unused registry_A), reachable_registry_A.
Defined.

(** X12.  [~LibManager] destroys nothing a program left registered.  In a
    registry a program can hold, the destructor changes no record and calls
    no destroy function; it reports every library still registered, in
    ascending order of names, with its count of at least one reference, and
    prints the success line exactly when the registry is empty. *)
Theorem destructor_reports_leaks s :
  reachable s →
  ∃ lines,
    LibManager_destructor s = Ok (lines ++ [DeleteManager]) s ∧
    (libMap s = ∅ → lines = [DeletedAll]) ∧
    (libMap s ≠ ∅ →
       lines = (λ it, NotDeleted it.1 (useCount it.2)) <$> entries (libMap s) ∧
       ∀ n c, NotDeleted n c ∈ lines → refCount n s = Some c ∧ 1 ≤ c).
Proof.
  intros Hs. apply reachable_inv in Hs.
  unfold LibManager_destructor.
  rewrite (bind_run _ _ _ _ _ (clearLibraries_nothing_unused s Hs)).
  run_M. eexists. split; [reflexivity|].
  destruct (decide (size (libMap s) = 0%nat)) as [Hz|Hz].
  - apply map_size_empty_inv in Hz. split; [done|]. by intros [].
  - split; [intros Hempty; by rewrite Hempty, map_size_empty in Hz|].
    intros _. split; [done|].
    intros n c ([k r] & [= -> ->] & Hin)%list_elem_of_fmap.
    apply elem_of_entries in Hin. unfold refCount. rewrite Hin.
    split; [done|]. by destruct (Hs k r Hin) as [[? ?] _].
Qed.

Lemma destructor_reports_leaks_witness :
  reachable registry_A ∧
  ∃ lines,
    LibManager_destructor registry_A = Ok (lines ++ [DeleteManager]) registry_A ∧
    (libMap registry_A = ∅ → lines = [DeletedAll]) ∧
    (libMap registry_A ≠ ∅ →
       lines = (λ it, NotDeleted it.1 (useCount it.2))
                 <$> entries (libMap registry_A) ∧
       ∀ n c, NotDeleted n c ∈ lines →
              refCount n registry_A = Some c ∧ 1 ≤ c).
Proof.
  split; [apply reachable_registry_A|].
  apply (destructor_reports_leaks registry_A), reachable_registry_A.
Defined.

(** ** Reports *)

(** X13.  Registration, use and report agree.  After a module is registered
    under a free name with path [p] and [k] further references are taken,
    [getLibraryInfo] reports its name, that path, the module's own version,
    source and revision, and [1 + k] references, whatever the uninitialised
    members of the [LibInfo] happened to hold; and it changes nothing. *)
Theorem getLibraryInfo_after_registration getModuleInfo indeterminate i d p k s :
  reachable s → libMap s !! getLibName i = None →
  1 + Z.of_nat k ≤ INT_MAX →
  ∃ s1,
    (addLibrary (Some i) d p ;;;
     repeatM k (acquireLibrary (getLibName i) ;;; ret tt)) s = Ok tt s1 ∧
    getLibraryInfo getModuleInfo indeterminate (getLibName i) s1
    = Ok (LibInfo.mk (getLibName i) p (getLibVersion i)
            (ModuleInfo.src (getModuleInfo i))
            (ModuleInfo.revision (getModuleInfo i)) (1 + Z.of_nat k)) s1.
Proof.
  intros Hs Hfresh Hmax. apply reachable_inv in Hs.
  eexists. split.
  - erewrite bind_run; [|by apply addLibrary_fresh].
    apply (acquire_times _ (getLibName i) (new_record i d p) k);
      [by apply lookup_insert_eq|simpl; lia].
  - unfold getLibraryInfo. run_M. by rewrite lookup_insert_eq.
Qed.

Lemma getLibraryInfo_after_registration_witness :
  reachable LibManager_new ∧
  libMap LibManager_new !! getLibName A_lib = None ∧
  1 + Z.of_nat 2 ≤ INT_MAX ∧
  ∃ s1,
    (addLibrary (Some A_lib) None "a.so" ;;;
     repeatM 2 (acquireLibrary (getLibName A_lib) ;;; ret tt)) LibManager_new
      = Ok tt s1 ∧
    getLibraryInfo sample_info (5, 6) (getLibName A_lib) s1
    = Ok (LibInfo.mk (getLibName A_lib) "a.so" (getLibVersion A_lib)
            (ModuleInfo.src (sample_info A_lib))
            (ModuleInfo.revision (sample_info A_lib)) (1 + Z.of_nat 2)) s1.
Proof.
  assert (1 + Z.of_nat 2 ≤ INT_MAX) as H by (vm_compute; discriminate).
  split; [apply reachable_new|]. split; [reflexivity|]. split; [exact H|].
  apply (getLibraryInfo_after_registration sample_info (5, 6) A_lib None
           "a.so" 2 LibManager_new).
  - apply reachable_new.
  - reflexivity.
  - exact H.
Defined.

Lemma omap_all_Some {A B} (f : A → option B) (l : list A) :
  (∀ x, x ∈ l → is_Some (f x)) → Some <$> omap f l = f <$> l.
Proof.
  induction l as [|x l IH]; intros H; [done|].
  destruct (H x) as [y Hy]; [left|].
  assert (Some <$> omap f l = f <$> l) as IH'
    by (apply IH; intros; apply H; by right).
  change (omap f (x :: l))
    with (match f x with Some y => y :: omap f l | None => omap f l end).
  rewrite Hy.
  change (Some <$> (y :: omap f l)) with (Some y :: (Some <$> omap f l)).
  rewrite IH', <- Hy. done.
Qed.

Lemma dumpTo_loop_run getModuleInfo indeterminate its written s :
  (∀ it, it ∈ its → libMap s !! it.1 = Some it.2) →
  (∀ it, it ∈ its → is_Some (libInterface it.2)) →
  dumpTo_loop getModuleInfo indeterminate its.*1 written s
  = Ok (foldl (λ text info, text +:+ module_element info) written
          (omap (info_of getModuleInfo) its)) s.
Proof.
  revert written. induction its as [|[k r] its IH]; intros written Hin Hnn;
    [done|].
  destruct (Hnn (k, r)) as [i Hi]; [left|]. simpl in Hi.
  assert (libMap s !! k = Some r) as Hk by (apply (Hin (k, r)); left).
  assert (info_of getModuleInfo (k, r)
          = Some (LibInfo.mk k (path r) (getLibVersion i)
                    (ModuleInfo.src (getModuleInfo i))
                    (ModuleInfo.revision (getModuleInfo i)) (useCount r)))
    as Hinfo by (unfold info_of; simpl; by rewrite Hi).
  change (omap (info_of getModuleInfo) ((k, r) :: its))
    with (match info_of getModuleInfo (k, r) with
          | Some y => y :: omap (info_of getModuleInfo) its
          | None => omap (info_of getModuleInfo) its
          end).
  rewrite Hinfo. simpl. unfold bind, getLibraryInfo at 1. run_M.
  rewrite Hk, Hi. simpl.
  apply IH; intros; [apply Hin|apply Hnn]; by right.
Qed.

Lemma info_of_names getModuleInfo (l : list (string * libStruct)) :
  (∀ it, it ∈ l → is_Some (libInterface it.2)) →
  LibInfo.name <$> omap (info_of getModuleInfo) l = l.*1.
Proof.
  induction l as [|[k r] l IH]; intros Hnn; [done|].
  destruct (Hnn (k, r)) as [i Hi]; [left|]. simpl in Hi.
  change (omap (info_of getModuleInfo) ((k, r) :: l))
    with (match info_of getModuleInfo (k, r) with
          | Some y => y :: omap (info_of getModuleInfo) l
          | None => omap (info_of getModuleInfo) l
          end).
  unfold info_of at 1. simpl. rewrite Hi. simpl. f_equal.
  apply IH. intros. apply Hnn. by right.
Qed.

(** X14.  [dumpTo] writes one [<module>] element for each registered
    library, in ascending order of names, each with that library's own
    name, source and revision, never an uninitialised [LibInfo], then the
    element of the standard library; it changes nothing in the manager.
    When the file cannot be opened it prints through a null [FILE*]. *)
Theorem dumpTo_lists_registered getModuleInfo stdlibInfo indeterminate s :
  reachable s →
  (∃ infos,
     dumpTo getModuleInfo stdlibInfo indeterminate true s
     = Ok (foldl (λ text info, text +:+ module_element info)
             ("  <modules>" +:+ LF) infos
           +:+ stdlib_element stdlibInfo +:+ "  </modules>" +:+ LF) s ∧
     Some <$> infos = info_of getModuleInfo <$> entries (libMap s) ∧
     LibInfo.name <$> infos = (entries (libMap s)).*1) ∧
  dumpTo getModuleInfo stdlibInfo indeterminate false s = Undef.
Proof.
  intros Hs. apply reachable_inv in Hs. split; [|done].
  assert (∀ it, it ∈ entries (libMap s) → is_Some (libInterface it.2)) as Hnn.
  { intros [k r] Hin%elem_of_entries.
    destruct (Hs k r Hin) as [_ (i & Hi & _)]. simpl. by rewrite Hi. }
  exists (omap (info_of getModuleInfo) (entries (libMap s))). split; [|split].
  - unfold dumpTo, getAllLibraryNames. run_M.
    rewrite dumpTo_loop_run; [done| |done].
    by intros [k r] Hin%elem_of_entries.
  - apply omap_all_Some. intros it Hit.
    destruct (Hnn it Hit) as [i Hi]. unfold info_of. rewrite Hi. by eexists.
  - by apply info_of_names.
Qed.

Lemma dumpTo_lists_registered_witness :
  reachable registry_A ∧
  (∃ infos,
     dumpTo sample_info stdlibInfo_unknown (5, 6) true registry_A
     = Ok (foldl (λ text info, text +:+ module_element info)
             ("  <modules>" +:+ LF) infos
           +:+ stdlib_element stdlibInfo_unknown +:+ "  </modules>" +:+ LF)
          registry_A ∧
     Some <$> infos = info_of sample_info <$> entries (libMap registry_A) ∧
     LibInfo.name <$> infos = (entries (libMap registry_A)).*1) ∧
  dumpTo sample_info stdlibInfo_unknown (5, 6) false registry_A = Undef.
Proof.
  split; [apply reachable_registry_A|].
  apply (dumpTo_lists_registered sample_info stdlibInfo_unknown (5, 6)
           registry_A), reachable_registry_A.
Defined.

(** ** Notifying every peer *)

Lemma notifications_others name l :
  notifications name l = omap (tell name) (filter (λ it, it.1 ≠ name) l).
Proof.
  induction l as [|it l IH]; [done|].
  rewrite notifications_cons, IH. unfold notification, tell.
  destruct (decide (it.1 ≠ name)).
  - rewrite filter_cons_True by done. simpl.
    by destruct (libInterface it.2).
  - by rewrite filter_cons_False.
Qed.

(** X15.  A successful [addLibrary] tells every library registered before,
    once each and in ascending order of their names, of the newcomer's
    name, right after the newcomer's [createModuleInfo]; it stores the new
    record with one reference, and nobody else is called. *)
Theorem addLibrary_notifies_every_peer i d p s :
  reachable s → libMap s !! getLibName i = None →
  ∃ peers,
    Some <$> peers = (λ it, libInterface it.2) <$> entries (libMap s) ∧
    addLibrary (Some i) d p s
    = Ok LIBMGR_NO_ERROR
         (mkMgr (<[getLibName i := mkLibStruct (Some i) d 1 false p]> (libMap s))
                (events s ++ CreateModuleInfo i ::
                   ((λ j, NewLibLoaded j (getLibName i)) <$> peers))) ∧
    i ∉ peers.
Proof.
  intros Hs Hfresh. apply reachable_inv in Hs.
  assert (∀ it, it ∈ entries (libMap s) → is_Some (libInterface it.2)) as Hnn.
  { intros [k r] Hin%elem_of_entries.
    destruct (Hs k r Hin) as [_ (j & Hj & _)]. simpl. by rewrite Hj. }
  exists (omap (λ it, libInterface it.2) (entries (libMap s))).
  split; [by apply omap_all_Some|]. split.
  - rewrite addLibrary_fresh by done. do 3 f_equal.
    rewrite notifications_others, entries_insert_fresh by done.
    unfold tell. by rewrite list_fmap_omap.
  - intros ([k r] & Hin & Hi)%list_elem_of_omap. simpl in Hi.
    apply elem_of_entries in Hin.
    destruct (Hs k r Hin) as [_ (j & Hj & <-)].
    assert (j = i) as -> by congruence. congruence.
Qed.

Lemma addLibrary_notifies_every_peer_witness :
  reachable registry_A ∧ libMap registry_A !! getLibName B_lib = None ∧
  ∃ peers,
    Some <$> peers = (λ it, libInterface it.2) <$> entries (libMap registry_A) ∧
    addLibrary (Some B_lib) None "" registry_A
    = Ok LIBMGR_NO_ERROR
         (mkMgr (<[getLibName B_lib := mkLibStruct (Some B_lib) None 1 false ""]>
                   (libMap registry_A))
                (events registry_A ++ CreateModuleInfo B_lib ::
                   ((λ j, NewLibLoaded j (getLibName B_lib)) <$> peers))) ∧
    B_lib ∉ peers.
Proof.
  split; [apply reachable_registry_A|]. split; [reflexivity|].
  apply (addLibrary_notifies_every_peer B_lib None "" registry_A).
  - apply reachable_registry_A.
  - reflexivity.
Defined.

(** ** What a call may change *)

Section Ensures.
Context (R : relation LibManager) `{!Reflexive R, !Transitive R, !EmitStable R}.

Lemma ensures_ret {A} (a : A) : ensures R (ret a).
Proof. intros s a' s' [= _ <-]. done. Qed.

Lemma ensures_emit e : ensures R (emit e).
Proof. intros s a' s' [= _ <-]. apply emit_stable. Qed.

Lemma ensures_getMap : ensures R getMap.
Proof. intros s a' s' [= _ <-]. done. Qed.

Lemma ensures_undef {A} : ensures R (@undef A).
Proof. intros s a' s' [=]. Qed.

Lemma ensures_throw {A} : ensures R (@throw A).
Proof. intros s a' s' [=]. Qed.

Lemma ensures_bind {A B} (m : M A) (k : A → M B) :
  ensures R m → (∀ a, ensures R (k a)) → ensures R (bind m k).
Proof.
  intros Hm Hk s b s' H. apply bind_Ok in H as (a & s1 & H1 & H2).
  etrans; [by eapply Hm|by eapply Hk].
Qed.

End Ensures.

#[local] Instance same_map_refl : Reflexive same_map.
Proof. by intros s. Qed.
#[local] Instance same_map_trans : Transitive same_map.
Proof. unfold same_map. intros s1 s2 s3 H12 H23. by rewrite H23. Qed.
#[local] Instance same_map_emit : EmitStable same_map.
Proof. by intros s evs. Qed.

#[local] Instance map_grows_refl : Reflexive map_grows.
Proof. intros s. unfold map_grows. reflexivity. Qed.
#[local] Instance map_grows_trans : Transitive map_grows.
Proof. unfold map_grows. intros s1 s2 s3 H12 H23. by etrans. Qed.
#[local] Instance map_grows_emit : EmitStable map_grows.
Proof. intros s evs. unfold map_grows. reflexivity. Qed.

Create HintDb ensures.
#[local] Hint Extern 1 (ensures _ (ret _)) =>
  apply ensures_ret; apply _ : ensures.
#[local] Hint Extern 1 (ensures _ (emit _)) =>
  apply ensures_emit; apply _ : ensures.
#[local] Hint Extern 1 (ensures _ getMap) =>
  apply ensures_getMap; apply _ : ensures.
#[local] Hint Extern 1 (ensures _ undef) => apply ensures_undef : ensures.
#[local] Hint Extern 1 (ensures _ throw) => apply ensures_throw : ensures.

Ltac ensures_tac :=
  repeat first
    [ solve [eauto with ensures]
    | match goal with
      | |- ensures _ (bind _ _) => apply ensures_bind; [apply _| |intros ?]
      end
    | match goal with
      | |- ensures _ (match ?x with _ => _ end) => destruct x
      | |- ensures _ (if ?x then _ else _) => destruct x
      end ].

Lemma same_map_notify_loop name its : ensures same_map (notify_loop name its).
Proof.
  induction its as [|[k r] its IH]; simpl; [eauto with ensures|].
  apply ensures_bind; [apply _..| |done]. ensures_tac.
Qed.

Lemma same_map_fopen_test W f : ensures same_map (fopen_test W f).
Proof. unfold fopen_test. ensures_tac. Qed.

#[local] Hint Resolve same_map_fopen_test : ensures.

Lemma same_map_search_loop P W fuel l cand pos :
  ensures same_map (search_loop P W fuel l cand pos).
Proof.
  revert pos. induction fuel as [|fuel IH]; intros pos; simpl;
    [eauto with ensures|].
  apply ensures_bind; [apply _..|eauto with ensures|]. intros [|].
  - ensures_tac.
  - destruct (string_find _ _ _); eauto with ensures.
Qed.

Lemma same_map_locate P W libPath : ensures same_map (locate P W libPath).
Proof.
  unfold locate. apply ensures_bind; [apply _..|eauto with ensures|].
  intros [|]; [eauto with ensures|].
  destruct (getenv _ _); [apply same_map_search_loop|eauto with ensures].
Qed.

Lemma same_map_instantiate W f c : ensures same_map (instantiate W f c).
Proof. unfold instantiate, intern_loadLib, getFunc. ensures_tac. Qed.

#[local] Hint Resolve same_map_locate same_map_instantiate : ensures.

(** What [addLibrary] does to the map. *)
Lemma addLibrary_effect i d p s e s' :
  addLibrary (Some i) d p s = Ok e s' →
  (e = LIBMGR_ERR_LIBNAME_EXISTS ∧ is_Some (libMap s !! getLibName i) ∧
   libMap s' = libMap s ∧ events s' = events s ++ [CreateModuleInfo i]) ∨
  (e = LIBMGR_NO_ERROR ∧ libMap s !! getLibName i = None ∧
   libMap s' = <[getLibName i := mkLibStruct (Some i) d 1 false p]> (libMap s)).
Proof.
  unfold addLibrary. run_M.
  destruct (libMap s !! getLibName i) as [r|] eqn:E.
  - intros [= <- <-]. left. by repeat split.
  - destruct (notify_loop _ _ _) as [[] s0| |] eqn:Hn; intros [= <- <-].
    right. split; [done|]. split; [done|].
    by apply same_map_notify_loop in Hn.
Qed.

(** What the image at [filepath] yields is what [loadable] says. *)
Lemma instantiate_value W filepath config s made s' :
  instantiate W filepath config s = Ok made s' →
  match loadable W filepath config with
  | Some (i, d) => made = (Some i, Some d)
  | None => made.1 = None
  end.
Proof.
  unfold instantiate, intern_loadLib, getFunc, loadable, factory_result.
  run_M. destruct (dlopen W filepath) as [h|]; simpl; [|by intros [= <- _]].
  destruct (sym_destroy_c h) as [d|]; simpl; [|by intros [= <- _]].
  destruct config as [c|]; simpl.
  - destruct (sym_config_create_c h) as [create2|]; simpl;
      [|by intros [= <- _]].
    destruct (create2 c); simpl; by intros [= <- _].
  - destruct (sym_create_c h) as [[create|]|]; simpl; by intros [= <- _].
Qed.

(** [loadLibrary], case by case. *)
Lemma loadLibrary_cases P W libPath config s :
  registry_inv s →
  ∃ filepath s1 e s',
    (emit (Stderr (LogLoadPlugin libPath)) ;;; locate P W libPath) s
      = Ok filepath s1 ∧
    loadLibrary P W libPath config s = Ok e s' ∧
    match loadable W filepath config with
    | None => e = LIBMGR_ERR_NOT_ABLE_TO_LOAD ∧ libMap s' = libMap s
    | Some (i, d) =>
        e = LIBMGR_NO_ERROR ∧
        ((is_Some (libMap s !! getLibName i) ∧ libMap s' = libMap s ∧
          ∃ evs, events s' = evs ++ [CreateModuleInfo i; Destroy d (Some i)]) ∨
         (libMap s !! getLibName i = None ∧
          libMap s'
          = <[getLibName i := mkLibStruct (Some i) (Some d) 1 false libPath]>
              (libMap s)))
    end.
Proof.
  intros Hs.
  destruct (runs_bind [libPath] [] (λ _, True) (λ _, True) _ _
              (runs_emit (Stderr (LogLoadPlugin libPath)))
              (λ _ _, runs_locate P W libPath) s Hs)
    as (filepath & s1 & Hloc & _).
  destruct (runs_loadLibrary P W libPath config s Hs) as (e & s' & Hload & _).
  exists filepath, s1, e, s'. split; [done|]. split; [done|].
  assert (libMap s1 = libMap s) as Hmap1.
  { revert Hloc. apply (ensures_bind same_map); ensures_tac. }
  unfold loadLibrary in Hload.
  rewrite <- (bind_assoc (emit (Stderr (LogLoadPlugin libPath)))
                (λ _, locate P W libPath)) in Hload.
  unfold bind at 1 in Hload. rewrite Hloc in Hload.
  apply bind_Ok in Hload as (made & s2 & Hmade & Hrest).
  assert (libMap s2 = libMap s1) as Hmap2
    by (by apply same_map_instantiate in Hmade).
  apply instantiate_value in Hmade. cbv beta in Hrest.
  destruct (loadable W filepath config) as [[i d]|].
  - subst made. simpl in Hrest.
    apply bind_Ok in Hrest as (error & s3 & Hadd & Hrest).
    apply bind_Ok in Hrest as ([] & s4 & Hdestroy & [= <- <-]).
    split; [done|].
    apply addLibrary_effect in Hadd
      as [(-> & Hin & Hmap3 & Hev3)|(-> & Hfresh & Hmap3)].
    + left. rewrite Hmap2, Hmap1 in Hin. split; [done|].
      simpl in Hdestroy. injection Hdestroy as <-. simpl.
      split; [congruence|]. exists (events s2).
      by rewrite Hev3, <- app_assoc.
    + right. rewrite Hmap2, Hmap1 in Hfresh. split; [done|].
      simpl in Hdestroy. injection Hdestroy as <-. congruence.
  - destruct made as [[j|] dd]; [done|]. simpl in Hrest.
    injection Hrest as <- <-. split; [done|]. congruence.
Qed.

(** X16.  [loadLibrary] touches no record that is already there.  In a
    registry a program can hold it always returns, and either leaves the
    map as it is, or adds a single record under a name that was free: the
    new instance with one reference and, as its path, the [libPath] the
    caller gave, not the file that was found.  When it answers "not able to
    load", the map is unchanged. *)
Theorem loadLibrary_adds_at_most_one P W libPath config s :
  reachable s →
  ∃ e s',
    loadLibrary P W libPath config s = Ok e s' ∧
    (e = LIBMGR_ERR_NOT_ABLE_TO_LOAD → libMap s' = libMap s) ∧
    (libMap s' = libMap s ∨
     ∃ i d, libMap s !! getLibName i = None ∧
            libMap s'
            = <[getLibName i := mkLibStruct (Some i) (Some d) 1 false libPath]>
                (libMap s)).
Proof.
  intros Hs. apply reachable_inv in Hs.
  destruct (loadLibrary_cases P W libPath config s Hs)
    as (filepath & s1 & e & s' & _ & Hload & Hcases).
  exists e, s'. split; [done|].
  destruct (loadable W filepath config) as [[i d]|].
  - destruct Hcases as [-> [(_ & Hsame & _)|(Hfresh & Hins)]].
    + split; [done|]. by left.
    + split; [done|]. right. by exists i, d.
  - destruct Hcases as [-> Hsame]. split; [done|]. by left.
Qed.

Lemma loadLibrary_adds_at_most_one_witness :
  reachable registry_A ∧
  ∃ e s',
    loadLibrary platform_posix foo_world "foo" None registry_A = Ok e s' ∧
    (e = LIBMGR_ERR_NOT_ABLE_TO_LOAD → libMap s' = libMap registry_A) ∧
    (libMap s' = libMap registry_A ∨
     ∃ i d, libMap registry_A !! getLibName i = None ∧
            libMap s'
            = <[getLibName i := mkLibStruct (Some i) (Some d) 1 false "foo"]>
                (libMap registry_A)).
Proof.
  split; [apply reachable_registry_A|].
  apply (loadLibrary_adds_at_most_one platform_posix foo_world "foo" None
           registry_A), reachable_registry_A.
Defined.

(** X17.  When [loadLibrary] succeeds.  With [filepath] the file it settles
    on, [loadLibrary] answers [LIBMGR_NO_ERROR] exactly when the image
    opens, has [destroy_c], has the factory that goes with [config]
    ([create_c] without a payload, [config_create_c] with one) and the
    factory returns an instance; otherwise it answers
    [LIBMGR_ERR_NOT_ABLE_TO_LOAD].  An instance with a free name is then
    registered with that [destroy_c]; one whose name is taken is destroyed
    again, as the last thing the call does, and the map is unchanged. *)
Theorem loadLibrary_succeeds_iff P W libPath config s filepath s1 :
  reachable s →
  (emit (Stderr (LogLoadPlugin libPath)) ;;; locate P W libPath) s
    = Ok filepath s1 →
  ∃ e s',
    loadLibrary P W libPath config s = Ok e s' ∧
    (e = LIBMGR_NO_ERROR ↔ is_Some (loadable W filepath config)) ∧
    (e = LIBMGR_ERR_NOT_ABLE_TO_LOAD ↔ loadable W filepath config = None) ∧
    ∀ i d, loadable W filepath config = Some (i, d) →
      (libMap s !! getLibName i = None →
       libMap s'
       = <[getLibName i := mkLibStruct (Some i) (Some d) 1 false libPath]>
           (libMap s)) ∧
      (is_Some (libMap s !! getLibName i) →
       libMap s' = libMap s ∧
       ∃ evs, events s' = evs ++ [CreateModuleInfo i; Destroy d (Some i)]).
Proof.
  intros Hs Hloc. apply reachable_inv in Hs.
  destruct (loadLibrary_cases P W libPath config s Hs)
    as (filepath' & s1' & e & s' & Hloc' & Hload & Hcases).
  assert (filepath' = filepath) as -> by congruence.
  exists e, s'. split; [done|].
  destruct (loadable W filepath config) as [[i d]|].
  - destruct Hcases as [-> Hcases].
    split; [by split; [eexists|]|]. split; [by split|].
    intros i' d' [= <- <-]. split.
    + intros Hfresh. destruct Hcases as [([r Hr] & _)|(_ & Hins)];
        [congruence|done].
    + intros [r Hr]. destruct Hcases as [(_ & Hsame & Hev)|(Hfresh & _)];
        [done|congruence].
  - destruct Hcases as [-> Hsame].
    split; [split; [done|by intros [? ?]]|]. split; [done|]. done.
Qed.

Lemma loadLibrary_succeeds_iff_witness :
  reachable registry_A ∧
  (emit (Stderr (LogLoadPlugin "foo")) ;;;
   locate platform_posix foo_world "foo") registry_A
    = Ok "/opt/lib/libfoo.so"
         (after registry_A
            [Stderr (LogLoadPlugin "foo"); Fopen "foo";
             Fopen "/usr/lib/libfoo.so"; Fopen "/opt/lib/libfoo.so";
             Stderr (LogFoundPlugin "/opt/lib/libfoo.so")]) ∧
  ∃ e s',
    loadLibrary platform_posix foo_world "foo" None registry_A = Ok e s' ∧
    (e = LIBMGR_NO_ERROR
     ↔ is_Some (loadable foo_world "/opt/lib/libfoo.so" None)) ∧
    (e = LIBMGR_ERR_NOT_ABLE_TO_LOAD
     ↔ loadable foo_world "/opt/lib/libfoo.so" None = None) ∧
    ∀ i d, loadable foo_world "/opt/lib/libfoo.so" None = Some (i, d) →
      (libMap registry_A !! getLibName i = None →
       libMap s'
       = <[getLibName i := mkLibStruct (Some i) (Some d) 1 false "foo"]>
           (libMap registry_A)) ∧
      (is_Some (libMap registry_A !! getLibName i) →
       libMap s' = libMap registry_A ∧
       ∃ evs, events s' = evs ++ [CreateModuleInfo i; Destroy d (Some i)]).
Proof.
  assert ((emit (Stderr (LogLoadPlugin "foo")) ;;;
           locate platform_posix foo_world "foo") registry_A
          = Ok "/opt/lib/libfoo.so"
               (after registry_A
                  [Stderr (LogLoadPlugin "foo"); Fopen "foo";
                   Fopen "/usr/lib/libfoo.so"; Fopen "/opt/lib/libfoo.so";
                   Stderr (LogFoundPlugin "/opt/lib/libfoo.so")])) as H
    by (vm_compute; reflexivity).
  split; [apply reachable_registry_A|]. split; [exact H|].
  apply (loadLibrary_succeeds_iff platform_posix foo_world "foo" None
           registry_A _ _ reachable_registry_A H).
Defined.

(** ** Config files of any shape *)

Lemma ensures_weaken {A} (R R' : relation LibManager) (m : M A) :
  (∀ s s', R s s' → R' s s') → ensures R m → ensures R' m.
Proof. intros HR Hm s a s' H. by eapply HR, Hm. Qed.

Lemma same_map_grows s s' : same_map s s' → map_grows s s'.
Proof. unfold same_map, map_grows. by intros ->. Qed.

Lemma map_grows_addLibrary l d p : ensures map_grows (addLibrary l d p).
Proof.
  intros s e s' H. destruct l as [i|]; [|by injection H as _ <-].
  apply addLibrary_effect in H as [(_ & _ & Hsame & _)|(_ & Hfresh & Hins)];
    unfold map_grows.
  - by rewrite Hsame.
  - rewrite Hins. by apply insert_subseteq.
Qed.

Lemma map_grows_loadLibrary P W libPath config :
  ensures map_grows (loadLibrary P W libPath config).
Proof.
  unfold loadLibrary.
  apply ensures_bind; [apply _|eauto with ensures|]. intros _.
  apply ensures_bind;
    [apply _|apply (ensures_weaken same_map), same_map_locate;
             apply same_map_grows|].
  intros filepath.
  apply ensures_bind;
    [apply _|apply (ensures_weaken same_map), same_map_instantiate;
             apply same_map_grows|].
  intros [interface destroyFunc]. simpl.
  destruct interface; [|eauto with ensures].
  apply ensures_bind; [apply _|apply map_grows_addLibrary|]. intros error.
  ensures_tac.
Qed.

Lemma map_grows_config_loop P W fuel rest :
  ensures map_grows (config_loop P W fuel rest).
Proof.
  revert rest. induction fuel as [|fuel IH]; intros rest; simpl;
    [eauto with ensures|].
  destruct (fgets _ rest) as [[|a buf] rest']; [eauto with ensures|].
  apply ensures_bind; [apply _| |done].
  destruct (plugin_of_buffer _); [|eauto with ensures].
  apply ensures_bind; [apply _|apply map_grows_loadLibrary|].
  intros _. eauto with ensures.
Qed.

Lemma map_grows_loadConfigFile P W config_file :
  ensures map_grows (loadConfigFile P W config_file).
Proof.
  unfold loadConfigFile.
  apply ensures_bind; [apply _|eauto with ensures|]. intros _.
  destruct (fs W config_file);
    [apply map_grows_config_loop|eauto with ensures].
Qed.

(** One buffer makes at most one attempt. *)
(** X18.  [loadConfigFile] is best effort.  In a registry a program can
    hold it always returns, whatever the file holds and however many of its
    lines fail to load, and every record registered before is still there,
    unchanged.  A config file that cannot be opened is reported on [stderr]
    and nothing else happens. *)
Theorem loadConfigFile_keeps_records P W config_file s :
  reachable s →
  ∃ s',
    loadConfigFile P W config_file s = Ok tt s' ∧
    libMap s ⊆ libMap s' ∧
    (fs W config_file = None →
     s' = after s [Fopen config_file; Stderr (LogConfigNotFound config_file)]).
Proof.
  intros Hs. apply reachable_inv in Hs.
  destruct (loadConfigFile_runs P W config_file s Hs)
    as ([] & s' & Hrun & _).
  exists s'. split; [done|]. split.
  - by apply (map_grows_loadConfigFile P W config_file s tt s').
  - intros Hnone. unfold loadConfigFile in Hrun. rewrite Hnone in Hrun.
    injection Hrun as <-. unfold after. simpl. by rewrite <- app_assoc.
Qed.

Lemma loadConfigFile_keeps_records_witness :
  reachable registry_A ∧
  ∃ s',
    loadConfigFile platform_posix five_world "plugins.txt" registry_A
      = Ok tt s' ∧
    libMap registry_A ⊆ libMap s' ∧
    (fs five_world "plugins.txt" = None →
     s' = after registry_A
            [Fopen "plugins.txt"; Stderr (LogConfigNotFound "plugins.txt")]).
Proof.
  split; [apply reachable_registry_A|].
  apply (loadConfigFile_keeps_records platform_posix five_world "plugins.txt"
           registry_A), reachable_registry_A.
Defined.

Lemma read_buffers_whole fuel content :
  (String.length content < fuel)%nat →
  foldr String.append "" (read_buffers fuel content) = content ∧
  Forall (λ buf, buf ≠ "" ∧ (String.length buf ≤ maxChars - 1)%nat)
    (read_buffers fuel content).
Proof.
  revert content. induction fuel as [|fuel IH]; intros content Hfuel; [lia|].
  simpl. destruct (fgets _ content) as [buf rest] eqn:E.
  destruct buf as [|a buf].
  - apply fgets_eof in E as ->. done.
  - destruct (fgets_split _ _ _ _ E) as [Happ Hlen].
    assert (String.length rest < fuel)%nat as Hrest.
    { rewrite <- Happ, string_length_app in Hfuel. simpl in Hfuel. lia. }
    destruct (IH rest Hrest) as [Hcat Hall]. split.
    + simpl. by rewrite Hcat.
    + constructor; [|done]. split; [done|]. exact Hlen.
Qed.

(** X19.  How [loadConfigFile] cuts a file up, whatever its lines look
    like.  The file is consumed as a sequence of buffers which, put end to
    end, are the file's text, none empty and none longer than 254 bytes;
    each buffer is looked at on its own and makes at most one
    [loadLibrary] call, in file order. *)
Theorem loadConfigFile_reads_buffers P W config_file content s :
  reachable s → fs W config_file = Some content →
  ∃ s' buffers,
    loadConfigFile P W config_file s = Ok tt s' ∧
    foldr String.append "" buffers = content ∧
    Forall (λ buf, buf ≠ "" ∧ (String.length buf ≤ 254)%nat) buffers ∧
    load_attempts (events s')
    = load_attempts (events s) ++ omap plugin_of_buffer buffers.
Proof.
  intros Hs Hfile. apply reachable_inv in Hs.
  destruct (loadConfigFile_runs P W config_file s Hs)
    as ([] & s' & Hrun & _ & _ & Hatt).
  rewrite Hfile in Hatt.
  destruct (read_buffers_whole (S (String.length content)) content)
    as [Hcat Hall]; [lia|].
  by exists s', (read_buffers (S (String.length content)) content).
Qed.

Lemma loadConfigFile_reads_buffers_witness :
  reachable LibManager_new ∧
  fs long_world "plugins.txt" = Some (long_line +:+ LF) ∧
  ∃ s' buffers,
    loadConfigFile platform_posix long_world "plugins.txt" LibManager_new
      = Ok tt s' ∧
    foldr String.append "" buffers = long_line +:+ LF ∧
    Forall (λ buf, buf ≠ "" ∧ (String.length buf ≤ 254)%nat) buffers ∧
    load_attempts (events s')
    = load_attempts (events LibManager_new) ++ omap plugin_of_buffer buffers.
Proof.
  split; [apply reachable_new|]. split; [reflexivity|].
  apply (loadConfigFile_reads_buffers platform_posix long_world "plugins.txt"
           (long_line +:+ LF) LibManager_new).
  - apply reachable_new.
  - reflexivity.
Defined.

Lemma rstrip_idem u : rstrip (rstrip u) = rstrip u.
Proof.
  induction u as [|a u IH]; [done|]. simpl.
  destruct (rstrip u) as [|b v] eqn:E.
  - destruct (is_ws a) eqn:Ha; [done|]. simpl. by rewrite Ha.
  - change (rstrip (String a (String b v)))
      with (match rstrip (String b v) with
            | "" => if is_ws a then "" else String a ""
            | String c w => String a (String c w)
            end).
    by rewrite IH.
Qed.

Lemma lstrip_head t :
  match lstrip t with
  | "" => True
  | String a _ => is_ws a = false
  end.
Proof.
  induction t as [|a t IH]; [done|]. rewrite lstrip_cons.
  by destruct (is_ws a) eqn:Ha.
Qed.

Lemma rstrip_head a v :
  is_ws a = false → ∃ v', rstrip (String a v) = String a v'.
Proof.
  intros Ha. simpl. destruct (rstrip v); [|by eexists].
  rewrite Ha. by eexists.
Qed.

Lemma plugin_of_buffer_clean buf p :
  plugin_of_buffer buf = Some p → clean_path p.
Proof.
  unfold plugin_of_buffer. pose proof (trim_positions (c_str buf)) as H.
  destruct (find_first_not_of_ws (c_str buf)) as [p1|]; [|done].
  destruct (find_last_not_of_ws (c_str buf)) as [p2|]; [|done].
  destruct H as [-> Hne]. unfold trim in *.
  pose proof (lstrip_head (c_str buf)) as Hhead.
  destruct (lstrip (c_str buf)) as [|a v]; [done|].
  destruct (rstrip_head a v Hhead) as [v' Hv'].
  intros Hp.
  assert (p = String a v') as ->.
  { rewrite Hv' in Hp. simpl in Hp.
    destruct a as [[] [] [] [] [] [] [] []]; congruence. }
  exists a, v'. split; [done|]. split; [done|]. split.
  - intros ->. rewrite Hv' in Hp. done.
  - rewrite <- Hv'. apply rstrip_idem.
Qed.

(** X20.  What [loadConfigFile] passes on.  Every path it calls
    [loadLibrary] with is non-empty, has no blank, tab, newline or carriage
    return at either end and does not start with [#]; this holds for any
    file, readable or not, and any line length. *)
Theorem config_paths_are_clean P W config_file s :
  reachable s →
  ∃ s' paths,
    loadConfigFile P W config_file s = Ok tt s' ∧
    load_attempts (events s') = load_attempts (events s) ++ paths ∧
    Forall clean_path paths.
Proof.
  intros Hs. apply reachable_inv in Hs.
  destruct (loadConfigFile_runs P W config_file s Hs)
    as ([] & s' & Hrun & _ & _ & Hatt).
  eexists s', _. split; [done|]. split; [exact Hatt|].
  destruct (fs W config_file) as [content|]; [|constructor].
  apply Forall_forall. intros p (buf & _ & Hbuf)%list_elem_of_omap.
  by apply plugin_of_buffer_clean with buf.
Qed.

Lemma config_paths_are_clean_witness :
  reachable LibManager_new ∧
  ∃ s' paths,
    loadConfigFile platform_posix five_world "plugins.txt" LibManager_new
      = Ok tt s' ∧
    load_attempts (events s')
    = load_attempts (events LibManager_new) ++ paths ∧
    Forall clean_path paths.
Proof.
  split; [apply reachable_new|].
  apply (config_paths_are_clean platform_posix five_world "plugins.txt"
           LibManager_new), reachable_new.
Defined.

(** ** An empty search list *)

(** X21.  A search-list variable that is set but empty is not "no
    directory": it counts as one directory with the empty name, so a
    library that is not a literal file is looked for in the root directory,
    as [/lib<name><suffix>], and taken from there when it exists. *)
Theorem locate_empty_search_list P W libPath s :
  ¬ openable W libPath → getenv W (env P) = Some "" →
  let candidate := prefix P +:+ libPath +:+ suffix P in
  (openable W ("/" +:+ candidate) →
   locate P W libPath s
   = Ok ("/" +:+ candidate)
        (after s [Fopen libPath; Fopen ("/" +:+ candidate);
                  Stderr (LogFoundPlugin ("/" +:+ candidate))])) ∧
  (¬ openable W ("/" +:+ candidate) →
   locate P W libPath s
   = Ok candidate (after s [Fopen libPath; Fopen ("/" +:+ candidate)])).
Proof.
  intros Hlit Henv candidate.
  rewrite locate_search, Henv by done. fold candidate.
  change (split_on (sep P) "") with [""]. split; intros Hroot.
  - rewrite (scan_dirs_hit W candidate [] "" []) by done.
    by rewrite after_after.
  - rewrite (scan_dirs_miss W candidate [""]) by (by repeat constructor).
    by rewrite after_after.
Qed.

Lemma locate_empty_search_list_witness :
  ¬ openable root_world "foo" ∧
  getenv root_world (env platform_posix) = Some "" ∧
  openable root_world "/libfoo.so" ∧
  locate platform_posix root_world "foo" LibManager_new
  = Ok "/libfoo.so"
       (after LibManager_new
          [Fopen "foo"; Fopen "/libfoo.so";
           Stderr (LogFoundPlugin "/libfoo.so")]).
Proof.
  assert (¬ openable root_world "foo") as H0
    by (intros [x Hx]; vm_compute in Hx; discriminate).
  assert (openable root_world "/libfoo.so") as H1
    by (exists ""; vm_compute; reflexivity).
  split; [exact H0|]. split; [reflexivity|]. split; [exact H1|].
  destruct (locate_empty_search_list platform_posix root_world "foo"
              LibManager_new H0 eq_refl) as [Hhit _].
  exact (Hhit H1).
Defined.

(** ** One record per object *)

(** X22.  In a registry a program can hold, every record holds a non-null
    instance and is filed under the name that instance reports; so no
    object is registered under two names, and no destroy function can be
    handed the same registered object from two records. *)
Theorem one_record_per_object s n1 n2 r1 r2 :
  reachable s →
  libMap s !! n1 = Some r1 → libMap s !! n2 = Some r2 →
  (∃ i, libInterface r1 = Some i ∧ getLibName i = n1) ∧
  (libInterface r1 = libInterface r2 → n1 = n2 ∧ r1 = r2).
Proof.
  intros Hs H1 H2. apply reachable_inv in Hs.
  destruct (Hs n1 r1 H1) as [_ (i1 & Hi1 & Hn1)].
  destruct (Hs n2 r2 H2) as [_ (i2 & Hi2 & Hn2)].
  split; [by exists i1|]. intros Heq.
  assert (i1 = i2) as -> by congruence.
  assert (n1 = n2) as -> by congruence.
  split; [done|]. congruence.
Qed.

Lemma one_record_per_object_witness :
  reachable registry_A ∧
  libMap registry_A !! "A" = Some (new_record A_lib (Some 7%N) "") ∧
  (∃ i, libInterface (new_record A_lib (Some 7%N) "") = Some i ∧
        getLibName i = "A") ∧
  (libInterface (new_record A_lib (Some 7%N) "")
   = libInterface (new_record A_lib (Some 7%N) "") →
   "A" = "A" ∧
   new_record A_lib (Some 7%N) "" = new_record A_lib (Some 7%N) "").
Proof.
  split; [apply reachable_registry_A|]. split; [reflexivity|].
  apply (one_record_per_object registry_A "A" "A").
  - apply reachable_registry_A.
  - reflexivity.
  - reflexivity.
Defined.
